(** * NEXUS interview core: a shallow embedding of [nexus_core]

    This development models the session data of [structs.py], the
    orchestrator operations of [orchestrator.py] and the text-generation
    path of [llm_gateway.py].  Every call to the language-model provider is
    an oracle: the operation receives the call's outcome (a value, or the
    exception the gateway raised) as an argument.  A Python float that the
    code only stores or compares is modelled by its exact value in [Q]; the
    arithmetic of the final report is modelled on IEEE 754 doubles
    ([Float], [to_double]), with Python's [round(x, 2)] as [py_round2].
    Session persistence ([SessionManager.save_session]) and logging have no
    effect on the modelled state. *)

From Stdlib Require Import ZArith QArith Qabs List String Ascii Bool Lia Permutation.
Import ListNotations.
Open Scope string_scope.

(** ** Exceptions and gateway outcomes *)

Inductive Exn :=
| ValueError (msg : string)
| RuntimeError (msg : string)
| IndexError
| AttributeError
| ValidationError
| ZeroDivisionError
| OverflowError (msg : string)
| RecursionError (msg : string).

(** [str(e)] *)
Definition exn_str (e : Exn) : string :=
  match e with
  | ValueError m | RuntimeError m => m
  | IndexError => "list index out of range"
  | AttributeError => "'NoneType' object has no attribute"
  | ValidationError => "validation error"
  | ZeroDivisionError => "division by zero"
  | OverflowError m | RecursionError m => m
  end.

(** Outcome of one awaited gateway call ([generate_text] or
    [generate_structured]): its value, or the exception it raised. *)
Inductive GwResult (A : Type) :=
| GOk (a : A)
| GErr (e : Exn).
Arguments GOk {A} a.
Arguments GErr {A} e.

(** ** Data model ([structs.py]) *)

Record CVAnalysis := mkCV {
  cv_name : option string;
  cv_skills : list string
}.

Record JDAnalysis := mkJD {
  jd_title : string;
  jd_required_skills : list string
}.

Record GapAnalysis := mkGap {
  match_score : Q;
  matched_skills : list string;
  missing_skills : list string
}.

Inductive Category :=
| Technical | Behavioral | Situational | Competency | Introduction | Closing.

Record Question := mkQuestion {
  qid : Z;
  question : string;
  target_area : string;
  category : Category;
  rubric_focus : string;
  follow_up_hint : option string
}.

Record ScoreDetail := mkDetail {
  score : Z;
  evidence : string;
  reasoning : string
}.

Record RubricScores := mkRubric {
  relevance : ScoreDetail;
  depth : ScoreDetail;
  competency : ScoreDetail;
  communication : ScoreDetail
}.

Record AnswerScore := mkAnswerScore {
  question_id : Z;
  question_text : string;
  answer_text : string;
  chain_of_thought : string;
  scores : RubricScores;
  average_score : Q;
  needs_follow_up : bool;
  follow_up_reason : option string
}.

Record EyeContactMetric := mkEye {
  timestamp : Q;
  gaze_on_screen : bool;
  confidence : Q
}.

Inductive Status := Idle | Setup | Ready | Interviewing | Completed | Error.

Definition status_eqb (a b : Status) : bool :=
  match a, b with
  | Idle, Idle | Setup, Setup | Ready, Ready | Interviewing, Interviewing
  | Completed, Completed | Error, Error => true
  | _, _ => false
  end.

(** [InterviewSession]; the fields no modelled operation reads or writes
    (created_at, conversation_history, timings, models_used) are left out. *)
Record InterviewSession := mkSession {
  sid : string;
  status : Status;
  cv_text : string;
  jd_text : string;
  cv_analysis : option CVAnalysis;
  jd_analysis : option JDAnalysis;
  gap_analysis : option GapAnalysis;
  questions : list Question;
  current_question_index : nat;
  session_scores : list AnswerScore;
  followed_up_questions : list Z;
  eye_contact_logs : list EyeContactMetric
}.

(** [InterviewSession()] with its defaults. *)
Definition new_session (id : string) : InterviewSession :=
  mkSession id Idle "" "" None None None [] 0 [] [] [].

(** Attribute assignments [session.f = v]. *)
Definition set_status (s : InterviewSession) (v : Status) : InterviewSession :=
  mkSession (sid s) v (cv_text s) (jd_text s) (cv_analysis s) (jd_analysis s)
    (gap_analysis s) (questions s) (current_question_index s)
    (session_scores s) (followed_up_questions s) (eye_contact_logs s).

Definition set_texts (s : InterviewSession) (cv jd : string) : InterviewSession :=
  mkSession (sid s) (status s) cv jd (cv_analysis s) (jd_analysis s)
    (gap_analysis s) (questions s) (current_question_index s)
    (session_scores s) (followed_up_questions s) (eye_contact_logs s).

Definition set_profiles (s : InterviewSession) (cv : CVAnalysis) (jd : JDAnalysis)
  : InterviewSession :=
  mkSession (sid s) (status s) (cv_text s) (jd_text s) (Some cv) (Some jd)
    (gap_analysis s) (questions s) (current_question_index s)
    (session_scores s) (followed_up_questions s) (eye_contact_logs s).

Definition set_gap (s : InterviewSession) (g : GapAnalysis) : InterviewSession :=
  mkSession (sid s) (status s) (cv_text s) (jd_text s) (cv_analysis s)
    (jd_analysis s) (Some g) (questions s) (current_question_index s)
    (session_scores s) (followed_up_questions s) (eye_contact_logs s).

Definition set_questions (s : InterviewSession) (qs : list Question) : InterviewSession :=
  mkSession (sid s) (status s) (cv_text s) (jd_text s) (cv_analysis s)
    (jd_analysis s) (gap_analysis s) qs (current_question_index s)
    (session_scores s) (followed_up_questions s) (eye_contact_logs s).

Definition set_index (s : InterviewSession) (i : nat) : InterviewSession :=
  mkSession (sid s) (status s) (cv_text s) (jd_text s) (cv_analysis s)
    (jd_analysis s) (gap_analysis s) (questions s) i
    (session_scores s) (followed_up_questions s) (eye_contact_logs s).

(** [session.scores.append(x)] *)
Definition append_score (s : InterviewSession) (x : AnswerScore) : InterviewSession :=
  mkSession (sid s) (status s) (cv_text s) (jd_text s) (cv_analysis s)
    (jd_analysis s) (gap_analysis s) (questions s) (current_question_index s)
    (session_scores s ++ [x]) (followed_up_questions s) (eye_contact_logs s).

(** [session.followed_up_questions.append(i)] *)
Definition append_followed (s : InterviewSession) (i : Z) : InterviewSession :=
  mkSession (sid s) (status s) (cv_text s) (jd_text s) (cv_analysis s)
    (jd_analysis s) (gap_analysis s) (questions s) (current_question_index s)
    (session_scores s) (followed_up_questions s ++ [i]) (eye_contact_logs s).

(** [session.eye_contact_logs.extend(ms)] *)
Definition extend_eye (s : InterviewSession) (ms : list EyeContactMetric) : InterviewSession :=
  mkSession (sid s) (status s) (cv_text s) (jd_text s) (cv_analysis s)
    (jd_analysis s) (gap_analysis s) (questions s) (current_question_index s)
    (session_scores s) (followed_up_questions s) (eye_contact_logs s ++ ms).

(** ** Orchestrator: question flow ([orchestrator.py]) *)

(** [get_next_question] on a session that was found. *)
Definition get_next_question (s : InterviewSession) : InterviewSession * option string :=
  match nth_error (questions s) (current_question_index s) with
  | None => (set_status s Completed, None)
  | Some q => (s, Some (question q))
  end.

(** Python truthiness of [next_q_text] (an [Optional[str]]). *)
Definition truthy (o : option string) : bool :=
  match o with
  | Some t => negb (String.eqb t "")
  | None => false
  end.

(** [x in xs] for a list of ints *)
Definition z_in (x : Z) (xs : list Z) : bool := existsb (Z.eqb x) xs.

(** The hydration of the parsed score by [process_answer]. *)
Definition hydrate (sd : AnswerScore) (q : Question) (transcript : string) : AnswerScore :=
  mkAnswerScore (qid q) (question q) transcript (chain_of_thought sd) (scores sd)
    (average_score sd) (needs_follow_up sd) (follow_up_reason sd).

(** The adaptive follow-up condition of [process_answer]. *)
Definition follow_up_triggered (sd : AnswerScore) (q : Question) (fu : list Z) : bool :=
  negb (Qle_bool 3 (average_score sd)) && needs_follow_up sd && negb (z_in (qid q) fu).

Definition follow_up_prompt (q : Question) : string :=
  "The candidate gave a weak answer to: '" ++ question q ++
  "'. Ask a polite but probing follow-up question. Hint: " ++
  match follow_up_hint q with
  | Some h => if String.eqb h "" then "Ask for a specific example." else h
  | None => "Ask for a specific example."
  end.

(** [session.eye_contact_logs.extend(eye_metrics)] under [if eye_metrics:] *)
Definition log_eye (s : InterviewSession) (eye_metrics : list EyeContactMetric) : InterviewSession :=
  match eye_metrics with [] => s | _ => extend_eye s eye_metrics end.

(** Step 3 of [process_answer]: move to the next question and build the
    returned pair [(response, is_complete)]. *)
Definition advance_turn (s1 : InterviewSession) : InterviewSession * (string * bool) :=
  let s4 := set_index s1 (S (current_question_index s1)) in
  let '(s5, next_q_text) := get_next_question s4 in
  if truthy next_q_text then
    match next_q_text with
    | Some t => (s5, (t, false))
    | None => (s5, ("Thank you for your time. The interview is now complete.", true))
    end
  else (s5, ("Thank you for your time. The interview is now complete.", true)).

(** [process_answer] on a session that was found.  [score_r] is the outcome
    of the scoring call [generate_structured(..., AnswerScore)] and
    [follow_up_r] gives the outcome of [generate_text] on the follow-up
    prompt (only awaited when a follow-up is triggered).  The result is the
    session after the call together with the returned pair
    [(response, is_complete)] or the exception that escapes. *)
Definition process_answer (s : InterviewSession) (transcript : string)
    (eye_metrics : list EyeContactMetric)
    (score_r : GwResult AnswerScore) (follow_up_r : string -> GwResult string)
    : InterviewSession * ((string * bool) + Exn) :=
  if status_eqb (status s) Completed then
    (s, inl ("Interview is complete. Thank you.", true))
  else
    let s0 := log_eye s eye_metrics in
    match nth_error (questions s0) (current_question_index s0) with
    | None => (s0, inr IndexError)
    | Some current_q =>
        (* the try block: [Some r] is a return from inside it, [None] falls
           through (normally or via the swallowed exception) *)
        let '(s1, ret) :=
          match score_r with
          | GErr _ => (s0, None)
          | GOk sd =>
              let s2 := append_score s0 (hydrate sd current_q transcript) in
              if follow_up_triggered sd current_q (followed_up_questions s2) then
                let s3 := append_followed s2 (qid current_q) in
                match follow_up_r (follow_up_prompt current_q) with
                | GOk follow_up_q => (s3, Some (follow_up_q, false))
                | GErr _ => (s3, None)
                end
              else (s2, None)
          end in
        match ret with
        | Some r => (s1, inl r)
        | None => let '(s5, r) := advance_turn s1 in (s5, inl r)
        end
    end.

(** ** Orchestrator: the analysis pipeline *)

(** [asyncio.gather(parse_cv(), parse_jd())]: both results when both calls
    succeed, otherwise the exception gather propagates.  When both calls
    fail, [jd_raised_first] says which exception was raised first. *)
Definition gather2 {A B : Type} (a : GwResult A) (b : GwResult B) (jd_raised_first : bool)
    : GwResult (A * B) :=
  match a, b with
  | GOk x, GOk y => GOk (x, y)
  | GErr e, GOk _ => GErr e
  | GOk _, GErr e => GErr e
  | GErr e1, GErr e2 => GErr (if jd_raised_first then e2 else e1)
  end.

Definition AnalysisResult : Type :=
  (option CVAnalysis * option JDAnalysis * option GapAnalysis * list Question)%type.

(** [analyze_candidate] on a session that was found; the four arguments
    after the texts are the outcomes of the CV, JD, gap and question
    generation calls ([QuestionList] is represented by its list). *)
Definition analyze_candidate (s : InterviewSession) (cv_txt jd_txt : string)
    (cv_r : GwResult CVAnalysis) (jd_r : GwResult JDAnalysis) (jd_raised_first : bool)
    (gap_r : GwResult GapAnalysis) (q_r : GwResult (list Question))
    : InterviewSession * (AnalysisResult + Exn) :=
  let s1 := set_status (set_texts s cv_txt jd_txt) Setup in
  match gather2 cv_r jd_r jd_raised_first with
  | GErr e => (s1, inr (RuntimeError ("Failed to analyze documents: " ++ exn_str e)))
  | GOk (cv_data, jd_data) =>
      let s2 := set_profiles s1 cv_data jd_data in
      match gap_r with
      | GErr e => (s2, inr (RuntimeError ("Failed to analyze gaps: " ++ exn_str e)))
      | GOk gap_data =>
          let s3 := set_gap s2 gap_data in
          match q_r with
          | GErr e => (s3, inr (RuntimeError ("Failed to generate questions: " ++ exn_str e)))
          | GOk qs =>
              let s4 := set_status (set_questions s3 qs) Ready in
              (s4, inl (cv_analysis s4, jd_analysis s4, gap_analysis s4, questions s4))
          end
      end
  end.

(** ** Python floats (IEEE 754 binary64) *)

(** Round-half-even of the rational [n / d], [d > 0]. *)
Definition rne (n d : Z) : Z :=
  let fl := (n / d)%Z in
  let r2 := (2 * (n - fl * d))%Z in
  if (r2 <? d)%Z then fl
  else if (d <? r2)%Z then (fl + 1)%Z
  else if Z.even fl then fl else (fl + 1)%Z.

(** A Python [float]: a finite double (its exact value; the sign of a
    zero is not kept), an infinity, or a NaN. *)
Inductive Float := Fin (q : Q) | Inf (neg : bool) | NaN.

(** [floor(log2(a / b))] for [a, b > 0]. *)
Definition flog2 (a b : Z) : Z :=
  let e := (Z.log2 a - Z.log2 b)%Z in
  if (0 <=? e)%Z then (if (b * 2 ^ e <=? a)%Z then e else e - 1)%Z
  else (if (b <=? a * 2 ^ (- e))%Z then e else e - 1)%Z.

(** The double nearest [a / b] ([a, b > 0]), ties to even: a 53-bit
    significand, exponents down to the subnormal [2^-1074], and [inf]
    from [2^1024] on. *)
Definition binary64_pos (a b : Z) : Float :=
  let e := Z.max (flog2 a b - 52) (-1074) in
  if (0 <=? e)%Z then
    let m := rne a (b * 2 ^ e) in
    if (2 ^ 1024 <=? m * 2 ^ e)%Z then Inf false else Fin (inject_Z (m * 2 ^ e))
  else Fin (Qmake (rne (a * 2 ^ (- e)) b) (Z.to_pos (2 ^ (- e)))).

Definition fneg (x : Float) : Float :=
  match x with Fin q => Fin (- q) | Inf s => Inf (negb s) | NaN => NaN end.

(** Round-to-nearest of an exact value: the result of every correctly
    rounded operation ([+], [-], [/], [int / int], [float(str)]). *)
Definition to_double (q : Q) : Float :=
  match Qnum q with
  | Z0 => Fin 0
  | Zpos a => binary64_pos (Zpos a) (Zpos (Qden q))
  | Zneg a => fneg (binary64_pos (Zpos a) (Zpos (Qden q)))
  end.

(** [x + y] *)
Definition fadd (x y : Float) : Float :=
  match x, y with
  | Fin a, Fin b => to_double (a + b)
  | NaN, _ | _, NaN => NaN
  | Inf s, Fin _ | Fin _, Inf s => Inf s
  | Inf s, Inf t => if Bool.eqb s t then Inf s else NaN
  end.

Definition fsub (x y : Float) : Float := fadd x (fneg y).

Definition fabs (x : Float) : Float :=
  match x with Fin q => Fin (Qabs q) | Inf _ => Inf false | NaN => NaN end.

(** C's [x >= y] on doubles: false when either is a NaN. *)
Definition fge (x y : Float) : bool :=
  match x, y with
  | NaN, _ | _, NaN => false
  | Inf false, _ | _, Inf true => true
  | Inf true, _ | _, Inf false => false
  | Fin a, Fin b => Qle_bool b a
  end.

Definition is_finite (x : Float) : bool := match x with Fin _ => true | _ => false end.

(** C truthiness of a double: [x != 0.0]. *)
Definition nonzero (x : Float) : bool :=
  match x with Fin q => negb (Qeq_bool q 0) | _ => true end.

(** [sum(xs)] of floats in CPython before 3.12: [0 + x0], then each
    item added in turn. *)
Definition fsum_naive (xs : list Q) : Float :=
  fold_left (fun acc x => fadd acc (Fin x)) xs (Fin 0).

(** The float loop of [sum] in CPython 3.12 and later: Neumaier's
    compensated summation, the compensation [c] being added at the end
    when it is non-zero and finite. *)
Fixpoint neumaier (f c : Float) (xs : list Q) : Float :=
  match xs with
  | [] => if nonzero c && is_finite c then fadd f c else f
  | x :: xs =>
      let t := fadd f (Fin x) in
      let c := if fge (fabs f) (fabs (Fin x)) then fadd c (fadd (fsub f t) (Fin x))
               else fadd c (fadd (fsub (Fin x) t) f) in
      neumaier t c xs
  end.

Definition fsum_neumaier (xs : list Q) : Float :=
  match xs with
  | [] => Fin 0
  | x :: xs => neumaier (fadd (Fin 0) (Fin x)) (Fin 0) xs
  end.

(** [sum] of a non-empty list of floats; [neumaier_sum] says whether the
    interpreter is CPython 3.12 or later (the repository pins no
    version). *)
Definition py_fsum (neumaier_sum : bool) (xs : list Q) : Float :=
  if neumaier_sum then fsum_neumaier xs else fsum_naive xs.

(** [a / b] on Python ints: the double nearest the exact quotient. *)
Definition int_true_div (a b : Z) : Float + Exn :=
  if (b =? 0)%Z then inr ZeroDivisionError
  else match to_double (inject_Z a / inject_Z b) with
       | Fin v => inl (Fin v)
       | _ => inr (OverflowError "integer division result too large for a float")
       end.

(** [x / n] for a float [x] and an int [n]: [n] is converted to a double
    first. *)
Definition float_div_int (x : Float) (n : Z) : Float + Exn :=
  match to_double (inject_Z n) with
  | Fin d =>
      if Qeq_bool d 0 then inr ZeroDivisionError
      else inl (match x with
                | Fin a => to_double (a / d)
                | Inf s => if Qle_bool 0 d then Inf s else Inf (negb s)
                | NaN => NaN
                end)
  | _ => inr (OverflowError "int too large to convert to float")
  end.

(** ** Orchestrator: the final report *)

(** Round-half-even of an exact value to two decimals. *)
Definition round2 (x : Q) : Q :=
  let x := Qred x in
  let a := (Qnum x * 100)%Z in
  let b := Zpos (Qden x) in
  let fl := (a / b)%Z in
  let r2 := (2 * (a - fl * b))%Z in
  let n :=
    if (r2 <? b)%Z then fl
    else if (b <? r2)%Z then (fl + 1)%Z
    else if Z.even fl then fl else (fl + 1)%Z in
  Qmake n 100.

(** Python's [round(x, 2)] on a float: the exact value of the double is
    rounded half to even to two decimals, and the decimal is read back
    as the nearest double; infinities and NaN round to themselves. *)
Definition py_round2 (x : Float) : Float :=
  match x with Fin v => to_double (round2 v) | _ => x end.

Inductive Dim := DRelevance | DDepth | DCompetency | DCommunication.

Definition dim_name (d : Dim) : string :=
  match d with
  | DRelevance => "relevance"
  | DDepth => "depth"
  | DCompetency => "competency"
  | DCommunication => "communication"
  end.

(** [getattr(s.scores, dim).score] *)
Definition dim_score (d : Dim) (r : RubricScores) : Z :=
  match d with
  | DRelevance => score (relevance r)
  | DDepth => score (depth r)
  | DCompetency => score (competency r)
  | DCommunication => score (communication r)
  end.

(** A [Dict[str, float]] as an association list in insertion order. *)
Definition FDict := list (string * Float).

Fixpoint dict_set (k : string) (v : Float) (d : FDict) : FDict :=
  match d with
  | [] => [(k, v)]
  | (k', v') :: d' => if String.eqb k k' then (k, v) :: d' else (k', v') :: dict_set k v d'
  end.

Fixpoint dict_get (k : string) (d : FDict) : option Float :=
  match d with
  | [] => None
  | (k', v) :: d' => if String.eqb k k' then Some v else dict_get k d'
  end.

(** [sum] of Python ints. *)
Definition z_sum (xs : list Z) : Z := fold_left Z.add xs 0%Z.

Definition sbind {A B : Type} (r : A + Exn) (f : A -> B + Exn) : B + Exn :=
  match r with inl a => f a | inr e => inr e end.

(** The aggregate [rubric_avg] computed by [generate_final_report]. *)
Definition rubric_avg (neumaier_sum : bool) (sc : list AnswerScore) : FDict + Exn :=
  let init := [("relevance", Fin 0); ("depth", Fin 0); ("competency", Fin 0);
               ("communication", Fin 0); ("overall", Fin 0)] in
  match sc with
  | [] => inl init
  | _ =>
      let d := fold_left
        (fun acc dim =>
           sbind acc (fun acc =>
           let total := z_sum (map (fun s => dim_score dim (scores s)) sc) in
           sbind (int_true_div total (Z.of_nat (List.length sc))) (fun m =>
           inl (dict_set (dim_name dim) (py_round2 m) acc))))
        [DRelevance; DDepth; DCompetency; DCommunication] (inl init) in
      sbind d (fun d =>
      sbind (float_div_int (py_fsum neumaier_sum (map average_score sc))
                           (Z.of_nat (List.length sc))) (fun m =>
      inl (dict_set "overall" (py_round2 m) d)))
  end.

Inductive Verdict := RECOMMEND | CONSIDER | DO_NOT_RECOMMEND.

Record Recommendation := mkRec {
  verdict : Verdict;
  rec_summary : string;
  hiring_confidence : Q
}.

Record FinalReport := mkReport {
  session_id : string;
  candidate : CVAnalysis;
  job : JDAnalysis;
  report_gap_analysis : GapAnalysis;
  total_questions : nat;
  questions_answered : nat;
  rubric_scores : FDict;
  per_question_scores : list AnswerScore;
  recommendation : Recommendation
}.

(** [generate_final_report] on a session that was found; [rec_r] is the
    outcome of the recommendation call and [neumaier_sum] selects the
    [sum] of the interpreter ([py_fsum]).  It reads the session only. *)
Definition generate_final_report (neumaier_sum : bool) (s : InterviewSession)
    (rec_r : GwResult Recommendation) : FinalReport + Exn :=
  match rubric_avg neumaier_sum (session_scores s) with
  | inr e => inr e
  | inl avg =>
  (* [session.cv_analysis.name] and [session.jd_analysis.title] *)
  match cv_analysis s, jd_analysis s with
  | None, _ | _, None => inr AttributeError
  | Some cv, Some jd =>
      match rec_r with
      | GErr e => inr e
      | GOk recommendation =>
          (* the [FinalReport(...)] validation: [gap_analysis] is required *)
          match gap_analysis s with
          | None => inr ValidationError
          | Some gap =>
              inl (mkReport (sid s) cv jd gap (List.length (questions s))
                     (List.length (session_scores s)) avg (session_scores s) recommendation)
          end
      end
  end
  end.

(** ** Gateway ([llm_gateway.py]) *)

Module Gateway.

(** The result of one provider request: the message content, or the
    exception raised by the client, given by its [str(e)]. *)
Inductive Outcome := Resp (content : string) | Fail (err : string).

(** The provider: the outcome of the [k]-th request (counted over the
    gateway's lifetime) sent to [model] with client [c]. *)
Definition Provider := nat -> string -> nat -> Outcome.

(** The gateway's state: [len(self.clients)], the rotation pointer, and,
    as observations, the number of requests sent, the (model, client) of
    every request and every backoff sleep in seconds. *)
Record Gw := mkGw {
  n_clients : nat;
  current_client_idx : nat;
  requests : nat;
  attempt_log : list (string * nat);
  sleep_log : list nat
}.

Definition primary_model := "llama-3.3-70b-versatile".
Definition fallback_models := ["qwen-2.5-32b"; "llama-3.1-8b-instant"].

Definition set_idx (g : Gw) (i : nat) : Gw :=
  mkGw (n_clients g) i (requests g) (attempt_log g) (sleep_log g).

(** [_get_client]: the client index used, and the rotated state. *)
Definition get_client (g : Gw) : nat * Gw :=
  (current_client_idx g,
   set_idx g ((current_client_idx g + 1) mod n_clients g)).

(** ["429" in str(e)] *)
Definition is_rate_limit (err : string) : bool :=
  match String.index 0 "429" err with Some _ => true | None => false end.

(** The body of [_call_api_raw] (one attempt, without the retry decorator). *)
Definition call_api_once (p : Provider) (model : string) (g : Gw) : Gw * (string + string) :=
  let '(client, g1) := get_client g in
  let g2 := mkGw (n_clients g1) (current_client_idx g1) (S (requests g1))
                 (attempt_log g1 ++ [(model, client)]) (sleep_log g1) in
  match p (requests g) model client with
  | Resp c => (g2, inl c)
  | Fail e =>
      if is_rate_limit e
      then (set_idx g2 ((current_client_idx g2 + 1) mod n_clients g2), inr e)
      else (g2, inr e)
  end.

(** tenacity's [wait_exponential(multiplier=1, min=2, max=10)] after the
    failed attempt number [n] (1-based). *)
Definition wait_exponential (n : nat) : nat :=
  Nat.min 10 (Nat.max 2 (1 * 2 ^ (n - 1))).

Definition sleep (g : Gw) (t : nat) : Gw :=
  mkGw (n_clients g) (current_client_idx g) (requests g) (attempt_log g) (sleep_log g ++ [t]).

(** The [@retry(stop=stop_after_attempt(3), ...)] loop: attempt number
    [n], with [left] further attempts allowed.  Every exception is
    retried; the last one surfaces as tenacity's [RetryError]. *)
Fixpoint retrying (p : Provider) (model : string) (n left : nat) (g : Gw)
    : Gw * (string + string) :=
  let '(g1, r) := call_api_once p model g in
  match r with
  | inl c => (g1, inl c)
  | inr e =>
      match left with
      | O => (g1, inr "RetryError")
      | S left' => retrying p model (S n) left' (sleep g1 (wait_exponential n))
      end
  end.

(** [_call_api_raw] with its decorator. *)
Definition call_api_raw (p : Provider) (model : string) (g : Gw) : Gw * (string + string) :=
  retrying p model 1 2 g.

(** The fallback loop of [generate_text] over [self.fallback_models]. *)
Fixpoint fallback (p : Provider) (models : list string) (g : Gw) : Gw * (string + string) :=
  match models with
  | [] => (g, inr "All models failed.")
  | m :: ms =>
      match call_api_raw p m g with
      | (g1, inl c) => (g1, inl c)
      | (g1, inr _) => fallback p ms g1
      end
  end.

(** [generate_text]: the primary model, then the fallback cascade. *)
Definition generate_text (p : Provider) (g : Gw) : Gw * (string + string) :=
  match call_api_raw p primary_model g with
  | (g1, inl c) => (g1, inl c)
  | (g1, inr _) => fallback p fallback_models g1
  end.

(** The cascade of models [generate_text] tries, and the attempts made
    when each model of [ms] is tried three times. *)
Definition cascade : list string := primary_model :: fallback_models.

Definition tries (ms : list string) : list string := List.concat (map (fun m => repeat m 3) ms).

End Gateway.

(** ** Gateway set-up and structured output ([llm_gateway.py]) *)

Module GatewaySetup.
Import Gateway.

(** [n] consecutive calls of [_get_client]: the client indices used, in
    order, and the final state. *)
Fixpoint acquire (k : nat) (g : Gw) : list nat * Gw :=
  match k with
  | O => ([], g)
  | S k' =>
      let '(c, g1) := get_client g in
      let '(cs, g2) := acquire k' g1 in
      (c :: cs, g2)
  end.

(** Python's [str.strip()] with no argument strips whitespace; on ASCII
    these are the characters 9 to 13 and 28 to 32. *)
Definition is_space (c : ascii) : bool :=
  let n := nat_of_ascii c in
  (Nat.leb 9 n && Nat.leb n 13) || (Nat.leb 28 n && Nat.leb n 32).

(** [str.strip(ch)] for a single character [ch]. *)
Definition is_char (ch : ascii) (c : ascii) : bool := Ascii.eqb c ch.

Fixpoint lstrip_by (f : ascii -> bool) (s : string) : string :=
  match s with
  | EmptyString => EmptyString
  | String c s' => if f c then lstrip_by f s' else s
  end.

Fixpoint rstrip_by (f : ascii -> bool) (s : string) : string :=
  match s with
  | EmptyString => EmptyString
  | String c s' =>
      let r := rstrip_by f s' in
      if String.eqb r "" && f c then EmptyString else String c r
  end.

(** [s.strip(chars)]: characters of [chars] removed at both ends. *)
Definition strip_by (f : ascii -> bool) (s : string) : string :=
  rstrip_by f (lstrip_by f s).

Definition nl : string := String "010"%char EmptyString.
Definition dquote : ascii := "034"%char.

(** [s.replace(pat, rep)] for a non-empty [pat]: occurrences replaced
    from left to right, without overlap.  Every replacement consumes at
    least one character, so [String.length s] steps suffice. *)
Fixpoint replace_fuel (fuel : nat) (pat rep s : string) : string :=
  match fuel with
  | O => s
  | S f =>
      match s with
      | EmptyString => EmptyString
      | String c s' =>
          if String.prefix pat s
          then rep ++ replace_fuel f pat rep (substring (String.length pat) (String.length s) s)
          else String c (replace_fuel f pat rep s')
      end
  end.

Definition py_replace (pat rep s : string) : string :=
  replace_fuel (String.length s) pat rep s.

(** [pat in s] *)
Fixpoint contains (pat s : string) : bool :=
  match s with
  | EmptyString => String.prefix pat s
  | String _ s' => String.prefix pat s || contains pat s'
  end.

(** The clean-up of the raw response in [generate_structured]. *)
Definition clean_response (raw_response : string) : string :=
  let cleaned := strip_by is_space raw_response in
  if String.prefix "```" cleaned
  then py_replace "json" "" (py_replace ("json" ++ nl) "" (strip_by (is_char "`"%char) cleaned))
  else cleaned.

(** The outcome of [json.loads(cleaned_response)] followed by
    [response_model.model_validate(data)]: the validated value, one of
    the exceptions the [except] clause names ([JSONDecodeError],
    [ValidationError]), or any other exception, such as the
    [RecursionError] of [json.loads] on a deeply nested reply. *)
Inductive ParseResult (A : Type) :=
| Parsed (a : A)
| ParseCaught
| ParseRaised (e : Exn).
Arguments Parsed {A} a.
Arguments ParseCaught {A}.
Arguments ParseRaised {A} e.

(** [generate_structured]: [parse] is [json.loads] followed by
    [response_model.model_validate]; [name] is [response_model.__name__].
    The exception of [generate_text], and a parse exception the [except]
    clause does not name, escape as they are. *)
Definition generate_structured {A : Type} (p : Provider) (g : Gw)
    (parse : string -> ParseResult A) (name : string) : Gw * (A + Exn) :=
  match generate_text p g with
  | (g1, inl raw_response) =>
      match parse (clean_response raw_response) with
      | Parsed a => (g1, inl a)
      | ParseCaught => (g1, inr (ValueError ("LLM failed to generate valid JSON for " ++ name)))
      | ParseRaised e => (g1, inr e)
      end
  | (g1, inr msg) => (g1, inr (RuntimeError msg))
  end.

(** [line.strip().split("=", 1)] when it has two parts. *)
Fixpoint split_eq (s : string) : option (string * string) :=
  match s with
  | EmptyString => None
  | String c s' =>
      if Ascii.eqb c "="%char then Some (EmptyString, s')
      else match split_eq s' with
           | Some (a, b) => Some (String c a, b)
           | None => None
           end
  end.

(** [if key and key not in keys: keys.append(key)] *)
Definition add_key (keys : list string) (key : string) : list string :=
  if negb (String.eqb key "") && negb (existsb (String.eqb key) keys)
  then (keys ++ [key])%list else keys.

Definition env_vars : list string := ["GROQ_API_KEY"; "GROQ_API_KEY_2"; "GROQ_API_KEY_3"].

(** The key read from one line of [.env], if the line is used. *)
Definition dotenv_key (line : string) : option string :=
  if String.prefix "GROQ_API_KEY" line then
    match split_eq (strip_by is_space line) with
    | Some (_, v) => Some (strip_by (is_char "'"%char) (strip_by (is_char dquote) (strip_by is_space v)))
    | None => None
    end
  else None.

(** [_load_api_keys]: [env] is [os.getenv]; [dotenv] is the lines of
    [.env] ([None] when the file does not exist). *)
Definition load_api_keys (env : string -> option string) (dotenv : option (list string))
    : list string :=
  let keys := fold_left (fun keys var_name =>
                 match env var_name with Some key => add_key keys key | None => keys end)
                 env_vars [] in
  match keys with
  | [] =>
      match dotenv with
      | None => keys
      | Some lines =>
          fold_left (fun keys line =>
             match dotenv_key line with Some key => add_key keys key | None => keys end)
             lines keys
      end
  | _ => keys
  end.

(** [AsyncLLMGateway.__init__]: the gateway with one client per key. *)
Definition gateway_init (env : string -> option string) (dotenv : option (list string))
    : Gw + Exn :=
  match load_api_keys env dotenv with
  | [] => inr (ValueError "No GROQ_API_KEY found")
  | keys => inl (mkGw (List.length keys) 0 0 [] [])
  end.

End GatewaySetup.

(** ** Session storage ([SessionManager] in [orchestrator.py]) *)

(** [SessionManager._sessions]: a dict from session id to session, as an
    association list in insertion order. *)
Definition Registry := list (string * InterviewSession).

(** [d[k] = v]: an existing key keeps its position. *)
Fixpoint reg_set (k : string) (v : InterviewSession) (r : Registry) : Registry :=
  match r with
  | [] => [(k, v)]
  | (k', v') :: r' => if String.eqb k k' then (k, v) :: r' else (k', v') :: reg_set k v r'
  end.

(** [get_session]: [d.get(session_id)] *)
Fixpoint get_session (id : string) (r : Registry) : option InterviewSession :=
  match r with
  | [] => None
  | (k, v) :: r' => if String.eqb id k then Some v else get_session id r'
  end.

(** [list_sessions]: [d.values()] *)
Definition list_sessions (r : Registry) : list InterviewSession := map snd r.

(** [create_session]; [fresh] is the [uuid4] string of [InterviewSession()]. *)
Definition create_session (r : Registry) (fresh : string) : Registry * InterviewSession :=
  let session := new_session fresh in
  (reg_set (sid session) session r, session).

(** [load_all_sessions]: [parse] reads and validates one file ([None]
    when that raises, and the file is skipped). *)
Definition load_all_sessions (r : Registry) (files : list string)
    (parse : string -> option InterviewSession) : Registry :=
  fold_left (fun r file =>
    match parse file with
    | Some session => reg_set (sid session) session r
    | None => r
    end) files r.

(** ** Sessions reachable through the orchestrator's operations *)

Inductive Op := OAnalyze | ONextQuestion | OProcessAnswer | OReport.

(** One operation on a found session, with any outcome of its gateway
    calls.  [generate_final_report] only reads the session. *)
Inductive step : Op -> InterviewSession -> InterviewSession -> Prop :=
| step_analyze s cv_txt jd_txt cv_r jd_r b gap_r q_r :
    step OAnalyze s (fst (analyze_candidate s cv_txt jd_txt cv_r jd_r b gap_r q_r))
| step_next s :
    step ONextQuestion s (fst (get_next_question s))
| step_answer s t eye score_r follow_up_r :
    step OProcessAnswer s (fst (process_answer s t eye score_r follow_up_r))
| step_report s : step OReport s s.

(** Sessions created by [SessionManager.create_session] and then operated on. *)
Inductive reachable : InterviewSession -> Prop :=
| reachable_new id : reachable (new_session id)
| reachable_step op s s' : reachable s -> step op s s' -> reachable s'.

(** The same, where [analyze_candidate] only runs on sessions that have
    no follow-up recorded yet. *)
Inductive reachable_single_setup : InterviewSession -> Prop :=
| rss_new id : reachable_single_setup (new_session id)
| rss_step op s s' :
    reachable_single_setup s -> step op s s' ->
    (op = OAnalyze -> followed_up_questions s = []) ->
    reachable_single_setup s'.

(** ** Reference notions used in the statements *)

Definition closing_utterance := "Thank you for your time. The interview is now complete.".

(** The pair [process_answer] returns once the cursor has moved to [i]. *)
Definition next_utterance (qs : list Question) (i : nat) : string * bool :=
  match nth_error qs i with
  | Some q => if String.eqb (question q) "" then (closing_utterance, true) else (question q, false)
  | None => (closing_utterance, true)
  end.

(** The range [0..5] that [ScoreDetail] validates ([ge=0, le=5]), for
    every rubric score of every answer. *)
Definition scores_in_range (sc : list AnswerScore) : Prop :=
  Forall (fun a => forall d, (0 <= dim_score d (scores a) <= 5)%Z) sc.

(** Mean of the four rubric dimensions of one answer, rounded to 2 decimals. *)
Definition rubric_mean (r : RubricScores) : Q :=
  round2 (inject_Z (score (relevance r) + score (depth r) + score (competency r)
                    + score (communication r)) / 4).

(** Mean over the answers of one dimension. *)
Definition dimension_mean (d : Dim) (sc : list AnswerScore) : Q :=
  inject_Z (fold_right (fun s acc => (dim_score d (scores s) + acc)%Z) 0%Z sc)
  / inject_Z (Z.of_nat (List.length sc)).

(** ** Sample data (the shapes used by [tests/test_async_flow.py]) *)

Definition sample_detail (k : Z) := mkDetail k "E" "R".
Definition sample_rubric := mkRubric (sample_detail 5) (sample_detail 4)
                                     (sample_detail 5) (sample_detail 4).
Definition sample_q1 := mkQuestion 1 "Q1" "A" Technical "F" (Some "H").
Definition sample_q2 := mkQuestion 2 "Q2" "B" Technical "F" (Some "H").
Definition sample_session : InterviewSession :=
  set_status (set_questions (new_session "s") [sample_q1; sample_q2]) Ready.
Definition sample_score (avg : Q) (nf : bool) : AnswerScore :=
  mkAnswerScore 1 "Q1" "Ans" "" sample_rubric avg nf None.
Definition sample_cv := mkCV (Some "Test Candidate") ["Python"].
Definition sample_jd := mkJD "Software Engineer" ["Python"; "FastAPI"].
Definition sample_gap := mkGap 90 ["Python"] ["FastAPI"].
Definition follow_up_ok (_ : string) : GwResult string := GOk "Could you give an example?".
Definition follow_up_fails (_ : string) : GwResult string :=
  GErr (RuntimeError "All models failed.").

Definition sample_recommendation := mkRec CONSIDER "Solid Python background." 70.

(** An answer scored [k] for relevance; [rounding_session] below is an
    analysed session holding forty answers whose relevance scores add up
    to 107. *)
Definition relevance_score (k : Z) : AnswerScore :=
  mkAnswerScore 1 "Q1" "Ans" ""
    (mkRubric (sample_detail k) (sample_detail 4) (sample_detail 5) (sample_detail 4))
    (4 # 1) false None.

(** A session analysed with one question, answered weakly (one
    follow-up recorded), then analysed again with no question. *)
Definition trace_setup : InterviewSession :=
  fst (analyze_candidate (new_session "s") "CV Text" "JD Text" (GOk sample_cv) (GOk sample_jd)
         false (GOk sample_gap) (GOk [sample_q1])).
Definition trace_followed : InterviewSession :=
  fst (process_answer trace_setup "I am not sure." [] (GOk (sample_score (18 # 10) true)) follow_up_ok).
Definition trace_reanalysed : InterviewSession :=
  fst (analyze_candidate trace_followed "CV Text" "JD Text" (GOk sample_cv) (GOk sample_jd)
         false (GOk sample_gap) (GOk [])).
Definition rounding_session : InterviewSession :=
  fold_left append_score (repeat (relevance_score 3) 27 ++ repeat (relevance_score 2) 13)%list
    trace_setup.

(** A session with no question, completed by [get_next_question], then
    analysed again with a failing CV extraction. *)
Definition trace_completed : InterviewSession := fst (get_next_question (new_session "s")).
Definition trace_reset : InterviewSession :=
  fst (analyze_candidate trace_completed "CV Text" "JD Text"
         (GErr (RuntimeError "All models failed.")) (GOk sample_jd) false
         (GOk sample_gap) (GOk [sample_q1])).

(** A provider whose first request is rate limited and whose later
    requests succeed, and a gateway holding two API keys. *)
Definition rate_limited_once : Gateway.Provider :=
  fun k _ _ => if Nat.eqb k 0 then Gateway.Fail "Error code: 429 - Rate limit reached"
               else Gateway.Resp "ok".
Definition two_key_gateway : Gateway.Gw := Gateway.mkGw 2 0 0 [] [].

(** A line of [.env] setting [GROQ_API_KEY] to [k], and a reply wrapped
    in a [json] Markdown code block. *)
Definition env_line (k : string) : string := "GROQ_API_KEY=" ++ k ++ GatewaySetup.nl.
Definition fenced (payload : string) : string :=
  "```json" ++ GatewaySetup.nl ++ payload ++ GatewaySetup.nl ++ "```".

(** A provider that always replies with [r], and one that always fails. *)
Definition always_replies (r : string) : Gateway.Provider := fun _ _ _ => Gateway.Resp r.
Definition always_fails : Gateway.Provider := fun _ _ _ => Gateway.Fail "Error code: 503".

(** A parser accepting only the payload ["{}"] followed by a newline,
    and one whose [json.loads] exceeds the recursion limit. *)
Definition parse_empty_object (s : string) : GatewaySetup.ParseResult unit :=
  if String.eqb s ("{}" ++ GatewaySetup.nl) then GatewaySetup.Parsed tt
  else GatewaySetup.ParseCaught.
Definition parse_too_deep (s : string) : GatewaySetup.ParseResult unit :=
  GatewaySetup.ParseRaised
    (RecursionError "maximum recursion depth exceeded while decoding a JSON array from a unicode string").

(** Distinct, non-empty API keys. *)
Definition keys_ok (ks : list string) : Prop := NoDup ks /\ Forall (fun k => k <> "") ks.

(** A session analysed with two questions whose first answer is scored
    4.5 (the scoring of [tests/test_async_flow.py]). *)
Definition sample_answered : InterviewSession :=
  fst (process_answer
         (fst (analyze_candidate (new_session "s") "CV Text" "JD Text" (GOk sample_cv)
                 (GOk sample_jd) false (GOk sample_gap) (GOk [sample_q1; sample_q2])))
         "Answer" [] (GOk (sample_score (45 # 10) false)) follow_up_ok).

(** A well-formed registry: each id once, mapped to the session with
    that id. *)
Definition registry_ok (r : Registry) : Prop :=
  NoDup (map fst r) /\ Forall (fun kv => fst kv = sid (snd kv)) r.

(** Session files: two valid files for session "a" (an older and a newer
    state) and an unreadable one. *)
Definition sample_parse (f : string) : option InterviewSession :=
  if String.eqb f "a.json" then Some (new_session "a")
  else if String.eqb f "a2.json" then Some (set_status (new_session "a") Ready)
  else None.

(** A sequence of [generate_text] calls on one gateway, one provider
    behaviour per call. *)
Definition run_generate_text (ps : list Gateway.Provider) (g : Gateway.Gw) : Gateway.Gw :=
  fold_left (fun g p => fst (Gateway.generate_text p g)) ps g.

(** * Properties *)

(** ** Basic facts about the embedding *)

Lemma status_eqb_completed s : status s <> Completed -> status_eqb (status s) Completed = false.
Proof. destruct (status s); congruence || reflexivity. Qed.

Ltac log_eye_field := intros s eye; destruct eye; reflexivity.

Lemma log_eye_questions : forall s eye, questions (log_eye s eye) = questions s.
Proof. log_eye_field. Qed.
Lemma log_eye_index : forall s eye, current_question_index (log_eye s eye) = current_question_index s.
Proof. log_eye_field. Qed.
Lemma log_eye_followed : forall s eye, followed_up_questions (log_eye s eye) = followed_up_questions s.
Proof. log_eye_field. Qed.
Lemma log_eye_scores : forall s eye, session_scores (log_eye s eye) = session_scores s.
Proof. log_eye_field. Qed.
Lemma log_eye_status : forall s eye, status (log_eye s eye) = status s.
Proof. log_eye_field. Qed.

Lemma advance_turn_spec s1 :
  let '(s5, r) := advance_turn s1 in
  r = next_utterance (questions s1) (S (current_question_index s1)) /\
  current_question_index s5 = S (current_question_index s1) /\
  questions s5 = questions s1 /\
  followed_up_questions s5 = followed_up_questions s1 /\
  session_scores s5 = session_scores s1 /\
  (status s5 = status s1 \/ status s5 = Completed).
Proof.
  unfold advance_turn, get_next_question, next_utterance.
  set (s4 := set_index s1 (S (current_question_index s1))).
  assert (Hq : questions s4 = questions s1) by reflexivity.
  assert (Hi : current_question_index s4 = S (current_question_index s1)) by reflexivity.
  rewrite Hq, Hi.
  destruct (nth_error (questions s1) (S (current_question_index s1))) as [q|].
  - unfold truthy. destruct (String.eqb (question q) ""); simpl; repeat split; auto.
  - simpl. repeat split; auto.
Qed.

(** [process_answer] after a successful scoring call, unfolded. *)
Lemma process_answer_scored s t eye sd fr q :
  status s <> Completed ->
  nth_error (questions s) (current_question_index s) = Some q ->
  process_answer s t eye (GOk sd) fr =
  (let s2 := append_score (log_eye s eye) (hydrate sd q t) in
   if follow_up_triggered sd q (followed_up_questions s) then
     let s3 := append_followed s2 (qid q) in
     match fr (follow_up_prompt q) with
     | GOk x => (s3, inl (x, false))
     | GErr _ => let '(s5, r) := advance_turn s3 in (s5, inl r)
     end
   else let '(s5, r) := advance_turn s2 in (s5, inl r)).
Proof.
  intros Hst Hq. unfold process_answer.
  rewrite (status_eqb_completed s Hst), log_eye_questions, log_eye_index, Hq.
  cbv zeta. simpl followed_up_questions. rewrite log_eye_followed.
  destruct (follow_up_triggered sd q (followed_up_questions s)); [|reflexivity].
  destruct (fr (follow_up_prompt q)); reflexivity.
Qed.

(** [process_answer] after a failed scoring call, unfolded. *)
Lemma process_answer_unscored s t eye e fr q :
  status s <> Completed ->
  nth_error (questions s) (current_question_index s) = Some q ->
  process_answer s t eye (GErr e) fr =
  (let '(s5, r) := advance_turn (log_eye s eye) in (s5, inl r)).
Proof.
  intros Hst Hq. unfold process_answer.
  rewrite (status_eqb_completed s Hst), log_eye_questions, log_eye_index, Hq.
  reflexivity.
Qed.

Lemma follow_up_triggered_spec sd q fu :
  follow_up_triggered sd q fu = true <->
  (average_score sd < 3 /\ needs_follow_up sd = true /\ ~ In (qid q) fu).
Proof.
  unfold follow_up_triggered, z_in.
  rewrite !andb_true_iff, negb_true_iff, negb_true_iff.
  split.
  - intros [[H1 H2] H3]. repeat split; auto.
    + apply Qnot_le_lt. intro Hle. apply Qle_bool_iff in Hle. congruence.
    + intro Hin. assert (existsb (Z.eqb (qid q)) fu = true) by
        (apply existsb_exists; exists (qid q); split; [exact Hin | apply Z.eqb_refl]).
      congruence.
  - intros [H1 [H2 H3]]. repeat split; auto.
    + destruct (Qle_bool 3 (average_score sd)) eqn:E; [|reflexivity].
      apply Qle_bool_iff in E. exfalso. apply (Qlt_not_le _ _ H1 E).
    + destruct (existsb (Z.eqb (qid q)) fu) eqn:E; [|reflexivity].
      apply existsb_exists in E. destruct E as [x [Hx Heq]].
      apply Z.eqb_eq in Heq. subst x. contradiction.
Qed.

Lemma process_answer_scored_scores s t eye sd fr q s' r :
  status s <> Completed ->
  nth_error (questions s) (current_question_index s) = Some q ->
  process_answer s t eye (GOk sd) fr = (s', r) ->
  session_scores s' = (session_scores s ++ [hydrate sd q t])%list.
Proof.
  intros Hst Hq H. rewrite (process_answer_scored s t eye sd fr q Hst Hq) in H.
  cbv zeta in H.
  destruct (follow_up_triggered sd q (followed_up_questions s)).
  - destruct (fr (follow_up_prompt q)).
    + injection H as <- _. simpl. now rewrite log_eye_scores.
    + pose proof (advance_turn_spec (append_followed (append_score (log_eye s eye) (hydrate sd q t)) (qid q))) as A.
      destruct (advance_turn _) as [s5 r5]. injection H as <- _.
      destruct A as (_ & _ & _ & _ & -> & _). simpl. now rewrite log_eye_scores.
  - pose proof (advance_turn_spec (append_score (log_eye s eye) (hydrate sd q t))) as A.
    destruct (advance_turn _) as [s5 r5]. injection H as <- _.
    destruct A as (_ & _ & _ & _ & -> & _). simpl. now rewrite log_eye_scores.
Qed.

(** ** C1: the follow-up decision *)

(** C1 (amended).  After a successfully scored answer, a follow-up is
    triggered exactly when the average is below 3.0, the score asks for a
    follow-up and the question id is not yet followed up.  When triggered,
    the id is recorded; if the follow-up text is generated, it is returned
    and the cursor stays; if that call fails, the cursor advances by one and
    the next utterance is returned.  When not triggered, the followed-up
    list is unchanged and the cursor advances by one. *)
Theorem process_answer_follow_up_decision s t eye sd fr q s' r :
  status s <> Completed ->
  nth_error (questions s) (current_question_index s) = Some q ->
  process_answer s t eye (GOk sd) fr = (s', r) ->
  ((average_score sd < 3 /\ needs_follow_up sd = true /\
    ~ In (qid q) (followed_up_questions s)) ->
   followed_up_questions s' = (followed_up_questions s ++ [qid q])%list /\
   match fr (follow_up_prompt q) with
   | GOk txt => r = inl (txt, false) /\
                current_question_index s' = current_question_index s
   | GErr _ => r = inl (next_utterance (questions s) (S (current_question_index s))) /\
               current_question_index s' = S (current_question_index s)
   end) /\
  (~ (average_score sd < 3 /\ needs_follow_up sd = true /\
      ~ In (qid q) (followed_up_questions s)) ->
   followed_up_questions s' = followed_up_questions s /\
   r = inl (next_utterance (questions s) (S (current_question_index s))) /\
   current_question_index s' = S (current_question_index s)).
Proof.
  intros Hst Hq H. rewrite (process_answer_scored s t eye sd fr q Hst Hq) in H.
  cbv zeta in H.
  pose proof (follow_up_triggered_spec sd q (followed_up_questions s)) as T.
  destruct (follow_up_triggered sd q (followed_up_questions s)) eqn:E.
  - split; [intros _ | intros Hn; exfalso; apply Hn, T; reflexivity].
    destruct (fr (follow_up_prompt q)).
    + injection H as <- <-. simpl. rewrite log_eye_followed, log_eye_index. auto.
    + pose proof (advance_turn_spec (append_followed (append_score (log_eye s eye) (hydrate sd q t)) (qid q))) as A.
      destruct (advance_turn _) as [s5 r5]. injection H as <- <-.
      destruct A as (-> & -> & Hqs & -> & _). simpl.
      rewrite log_eye_followed, log_eye_index, log_eye_questions. auto.
  - split; [intros Hc; apply T in Hc; discriminate | intros _].
    pose proof (advance_turn_spec (append_score (log_eye s eye) (hydrate sd q t))) as A.
    destruct (advance_turn _) as [s5 r5]. injection H as <- <-.
    destruct A as (-> & -> & _ & -> & _). simpl.
    rewrite log_eye_followed, log_eye_index, log_eye_questions. auto.
Qed.

Lemma process_answer_follow_up_decision_witness :
  status sample_session <> Completed /\
  nth_error (questions sample_session) (current_question_index sample_session) = Some sample_q1 /\
  process_answer sample_session "I am not sure." [] (GOk (sample_score (18 # 10) true)) follow_up_ok
  = (fst (process_answer sample_session "I am not sure." [] (GOk (sample_score (18 # 10) true)) follow_up_ok),
     snd (process_answer sample_session "I am not sure." [] (GOk (sample_score (18 # 10) true)) follow_up_ok)) /\
  followed_up_questions
    (fst (process_answer sample_session "I am not sure." [] (GOk (sample_score (18 # 10) true)) follow_up_ok))
  = [1%Z] /\
  current_question_index
    (fst (process_answer sample_session "I am not sure." [] (GOk (sample_score (18 # 10) true)) follow_up_ok))
  = 0%nat.
Proof.
  assert (H : status sample_session <> Completed) by discriminate.
  assert (Hq : nth_error (questions sample_session) (current_question_index sample_session)
               = Some sample_q1) by reflexivity.
  assert (Hp : process_answer sample_session "I am not sure." [] (GOk (sample_score (18 # 10) true)) follow_up_ok
    = (fst (process_answer sample_session "I am not sure." [] (GOk (sample_score (18 # 10) true)) follow_up_ok),
       snd (process_answer sample_session "I am not sure." [] (GOk (sample_score (18 # 10) true)) follow_up_ok)))
    by reflexivity.
  destruct (process_answer_follow_up_decision _ _ _ _ _ _ _ _ H Hq Hp) as [Ht _].
  assert (Hc : average_score (sample_score (18 # 10) true) < 3 /\
               needs_follow_up (sample_score (18 # 10) true) = true /\
               ~ In (qid sample_q1) (followed_up_questions sample_session)).
  { split; [reflexivity | split; [reflexivity | intros []]]. }
  destruct (Ht Hc) as [Hf [_ Hi]].
  split; [exact H | split; [exact Hq | split; [exact Hp | split]]].
  - rewrite Hf. reflexivity.
  - rewrite Hi. reflexivity.
Defined.

(** C1 fails as stated: all three conditions hold on the answer, but the
    follow-up generation call fails, so the next question is returned and
    the cursor advances although the question id was recorded. *)
Lemma process_answer_follow_up_call_fails :
  let sd := sample_score (18 # 10) true in
  let '(s', r) := process_answer sample_session "I am not sure." [] (GOk sd) follow_up_fails in
  average_score sd < 3 /\ needs_follow_up sd = true /\
  ~ In (qid sample_q1) (followed_up_questions sample_session) /\
  followed_up_questions s' = [1%Z] /\
  current_question_index s' = S (current_question_index sample_session) /\
  r = inl ("Q2", false).
Proof.
  simpl. split; [reflexivity | split; [reflexivity | split; [intros [] | auto]]].
Qed.

(** ** C8: a failed scoring call never blocks the turn *)

(** C8.  When the scoring call fails, [process_answer] does not raise: it
    records neither a score nor a follow-up, advances the cursor by one and
    returns the next question (or the closing utterance). *)
Theorem process_answer_scoring_failure s t eye e fr q s' r :
  status s <> Completed ->
  nth_error (questions s) (current_question_index s) = Some q ->
  process_answer s t eye (GErr e) fr = (s', r) ->
  r = inl (next_utterance (questions s) (S (current_question_index s))) /\
  current_question_index s' = S (current_question_index s) /\
  followed_up_questions s' = followed_up_questions s /\
  session_scores s' = session_scores s.
Proof.
  intros Hst Hq H. rewrite (process_answer_unscored s t eye e fr q Hst Hq) in H.
  pose proof (advance_turn_spec (log_eye s eye)) as A.
  destruct (advance_turn _) as [s5 r5]. injection H as <- <-.
  destruct A as (-> & -> & _ & -> & -> & _).
  rewrite log_eye_questions, log_eye_index, log_eye_followed, log_eye_scores. auto.
Qed.

Lemma process_answer_scoring_failure_witness :
  status sample_session <> Completed /\
  nth_error (questions sample_session) (current_question_index sample_session) = Some sample_q1 /\
  process_answer sample_session "Ans" [] (GErr (ValueError "LLM failed to generate valid JSON for AnswerScore")) follow_up_ok
  = (set_index sample_session 1%nat, inl ("Q2", false)) /\
  inl ("Q2", false) = inl (next_utterance (questions sample_session) 1%nat) :> ((string * bool) + Exn).
Proof.
  assert (H : status sample_session <> Completed) by discriminate.
  assert (Hq : nth_error (questions sample_session) (current_question_index sample_session)
               = Some sample_q1) by reflexivity.
  assert (Hp : process_answer sample_session "Ans" [] (GErr (ValueError "LLM failed to generate valid JSON for AnswerScore")) follow_up_ok
               = (set_index sample_session 1%nat, inl ("Q2", false))) by reflexivity.
  destruct (process_answer_scoring_failure _ _ _ _ _ _ _ _ H Hq Hp) as [Hr _].
  split; [exact H | split; [exact Hq | split; [exact Hp | exact Hr]]].
Defined.

(** ** C3: the stored average score *)

(** C3 (amended).  The [average_score] of the [AnswerScore] that
    [process_answer] appends is the value returned by the scoring model,
    stored verbatim together with its rubric scores; the code neither
    computes nor checks it against the four dimension scores. *)
Theorem process_answer_stores_model_average s t eye sd fr q s' r :
  status s <> Completed ->
  nth_error (questions s) (current_question_index s) = Some q ->
  process_answer s t eye (GOk sd) fr = (s', r) ->
  exists x, session_scores s' = (session_scores s ++ [x])%list /\
            average_score x = average_score sd /\ scores x = scores sd.
Proof.
  intros Hst Hq H. exists (hydrate sd q t).
  rewrite (process_answer_scored_scores s t eye sd fr q s' r Hst Hq H). auto.
Qed.

Lemma process_answer_stores_model_average_witness :
  status sample_session <> Completed /\
  nth_error (questions sample_session) (current_question_index sample_session) = Some sample_q1 /\
  exists x, session_scores (fst (process_answer sample_session "Ans" [] (GOk (sample_score (9 # 2) false)) follow_up_ok))
            = [x] /\ average_score x = 9 # 2 /\ scores x = sample_rubric.
Proof.
  assert (H : status sample_session <> Completed) by discriminate.
  assert (Hq : nth_error (questions sample_session) (current_question_index sample_session)
               = Some sample_q1) by reflexivity.
  destruct (process_answer_stores_model_average sample_session "Ans" [] (sample_score (9 # 2) false)
              follow_up_ok sample_q1 _ _ H Hq (surjective_pairing _)) as [x [Hs [Ha Hr]]].
  split; [exact H | split; [exact Hq | exists x; split; [exact Hs | split; assumption]]].
Defined.

(** C3 fails as stated: the model returns dimension scores {5,4,5,4} with an
    [average_score] of 1.0, and that value is what the session keeps. *)
Lemma stored_average_not_rubric_mean :
  let s' := fst (process_answer sample_session "Ans" [] (GOk (sample_score 1 false)) follow_up_ok) in
  exists x, In x (session_scores s') /\
            rubric_mean (scores x) == 9 # 2 /\ ~ (average_score x == rubric_mean (scores x)).
Proof.
  simpl. eexists. split; [left; reflexivity | split].
  - reflexivity.
  - vm_compute. discriminate.
Qed.

(** ** C9: empty or "no speech" utterances *)

(** C9 (amended).  [process_answer] scores every utterance, whatever its
    text (the empty string and the STT fallback "..." included): when the
    scoring call succeeds, exactly one [AnswerScore] carrying that text is
    appended to the session's score list. *)
Theorem process_answer_scores_any_utterance s t eye sd fr q s' r :
  status s <> Completed ->
  nth_error (questions s) (current_question_index s) = Some q ->
  process_answer s t eye (GOk sd) fr = (s', r) ->
  exists x, session_scores s' = (session_scores s ++ [x])%list /\
            answer_text x = t /\ question_id x = qid q.
Proof.
  intros Hst Hq H. exists (hydrate sd q t).
  rewrite (process_answer_scored_scores s t eye sd fr q s' r Hst Hq H). auto.
Qed.

Lemma process_answer_scores_any_utterance_witness :
  status sample_session <> Completed /\
  nth_error (questions sample_session) (current_question_index sample_session) = Some sample_q1 /\
  exists x, session_scores (fst (process_answer sample_session "..." [] (GOk (sample_score (9 # 2) false)) follow_up_ok))
            = [x] /\ answer_text x = "..." /\ question_id x = 1%Z.
Proof.
  assert (H : status sample_session <> Completed) by discriminate.
  assert (Hq : nth_error (questions sample_session) (current_question_index sample_session)
               = Some sample_q1) by reflexivity.
  destruct (process_answer_scores_any_utterance sample_session "..." [] (sample_score (9 # 2) false)
              follow_up_ok sample_q1 _ _ H Hq (surjective_pairing _)) as [x [Hs [Ha Hr]]].
  split; [exact H | split; [exact Hq | exists x; split; [exact Hs | split; assumption]]].
Defined.

(** C9 fails as stated: an empty utterance is scored and its score appended. *)
Lemma empty_utterance_is_scored :
  List.length (session_scores (fst (process_answer sample_session "" [] (GOk (sample_score (9 # 2) false)) follow_up_ok)))
  = S (List.length (session_scores sample_session)).
Proof. reflexivity. Qed.

(** ** C2 and C4: what each operation does to the session *)

Lemma analyze_candidate_effect s cvt jdt cv_r jd_r b gap_r q_r :
  let s' := fst (analyze_candidate s cvt jdt cv_r jd_r b gap_r q_r) in
  followed_up_questions s' = followed_up_questions s /\
  (status s' = Setup \/ status s' = Ready).
Proof.
  unfold analyze_candidate.
  destruct (gather2 cv_r jd_r b) as [[cv jd]|e]; simpl; [|auto].
  destruct gap_r; simpl; [|auto].
  destruct q_r; simpl; auto.
Qed.

Lemma get_next_question_effect s :
  let s' := fst (get_next_question s) in
  followed_up_questions s' = followed_up_questions s /\ questions s' = questions s /\
  (status s' = status s \/ status s' = Completed).
Proof. unfold get_next_question. destruct (nth_error _ _); simpl; auto. Qed.

Lemma process_answer_effect s t eye score_r fr :
  let s' := fst (process_answer s t eye score_r fr) in
  questions s' = questions s /\
  (status s' = status s \/ status s' = Completed) /\
  (followed_up_questions s' = followed_up_questions s \/
   exists q, nth_error (questions s) (current_question_index s) = Some q /\
             ~ In (qid q) (followed_up_questions s) /\
             followed_up_questions s' = (followed_up_questions s ++ [qid q])%list).
Proof.
  cbv zeta.
  destruct (status_eqb (status s) Completed) eqn:Ec.
  { unfold process_answer. rewrite Ec. simpl. auto. }
  assert (Hst : status s <> Completed) by (intro E; rewrite E in Ec; discriminate).
  destruct (nth_error (questions s) (current_question_index s)) as [q|] eqn:Hq.
  2:{ unfold process_answer. rewrite Ec, log_eye_questions, log_eye_index, Hq. simpl.
      rewrite log_eye_questions, log_eye_status, log_eye_followed. auto. }
  destruct score_r as [sd|e].
  - rewrite (process_answer_scored s t eye sd fr q Hst Hq). cbv zeta.
    pose proof (follow_up_triggered_spec sd q (followed_up_questions s)) as T.
    destruct (follow_up_triggered sd q (followed_up_questions s)).
    + destruct (proj1 T eq_refl) as (_ & _ & Hn).
      destruct (fr (follow_up_prompt q)).
      * simpl. rewrite log_eye_questions, log_eye_status, log_eye_followed.
        split; [reflexivity | split; [auto | right; exists q; auto]].
      * pose proof (advance_turn_spec (append_followed (append_score (log_eye s eye) (hydrate sd q t)) (qid q))) as A.
        destruct (advance_turn _) as [s5 r5]. destruct A as (_ & _ & Hq5 & Hf5 & _ & Hs).
        simpl fst. rewrite Hq5, Hf5. simpl in Hs |- *.
        rewrite log_eye_questions, log_eye_followed. rewrite log_eye_status in Hs.
        split; [reflexivity | split; [exact Hs | right; exists q; auto]].
    + pose proof (advance_turn_spec (append_score (log_eye s eye) (hydrate sd q t))) as A.
      destruct (advance_turn _) as [s5 r5]. destruct A as (_ & _ & Hq5 & Hf5 & _ & Hs).
      simpl fst. rewrite Hq5, Hf5. simpl in Hs |- *.
      rewrite log_eye_questions, log_eye_followed. rewrite log_eye_status in Hs. auto.
  - rewrite (process_answer_unscored s t eye e fr q Hst Hq).
    pose proof (advance_turn_spec (log_eye s eye)) as A.
    destruct (advance_turn _) as [s5 r5]. destruct A as (_ & _ & Hq5 & Hf5 & _ & Hs).
    simpl fst. rewrite Hq5, Hf5.
    rewrite log_eye_questions, log_eye_followed. rewrite log_eye_status in Hs. auto.
Qed.

Lemma step_followed op s s' :
  step op s s' ->
  followed_up_questions s' = followed_up_questions s \/
  exists i, ~ In i (followed_up_questions s) /\
            followed_up_questions s' = (followed_up_questions s ++ [i])%list /\
            In i (map qid (questions s)) /\ questions s' = questions s.
Proof.
  intros H; destruct H.
  - left. apply analyze_candidate_effect.
  - left. apply get_next_question_effect.
  - destruct (process_answer_effect s t eye score_r follow_up_r) as (Hqs & _ & [Hf | (q & Hq & Hn & Hf)]).
    + left. exact Hf.
    + right. exists (qid q). repeat split; auto.
      apply in_map. eapply nth_error_In. exact Hq.
  - left. reflexivity.
Qed.

Lemma step_questions op s s' : step op s s' -> op <> OAnalyze -> questions s' = questions s.
Proof.
  intros H; destruct H; intro Hop; try congruence.
  - apply get_next_question_effect.
  - apply process_answer_effect.
Qed.

Lemma NoDup_snoc {A : Type} (l : list A) (x : A) :
  NoDup l -> ~ In x l -> NoDup (l ++ [x])%list.
Proof.
  intros Hl Hx. apply NoDup_app; auto.
  - constructor; [intros [] | constructor].
  - intros y Hy [<- | []]. contradiction.
Qed.

(** C2 (amended).  In every reachable session the followed-up list has no
    duplicate; every operation either leaves it unchanged or appends one id
    that was not in it, so no id is followed up twice.  Since
    [analyze_candidate] replaces the question list without clearing the
    followed-up list, the bound by the number of questions holds in the
    sessions where analysis runs before any follow-up is recorded. *)
Theorem followed_up_invariant :
  (forall s, reachable s -> NoDup (followed_up_questions s)) /\
  (forall op s s', step op s s' ->
     followed_up_questions s' = followed_up_questions s \/
     exists i, ~ In i (followed_up_questions s) /\
               followed_up_questions s' = (followed_up_questions s ++ [i])%list) /\
  (forall s, reachable_single_setup s ->
     (List.length (followed_up_questions s) <= List.length (questions s))%nat).
Proof.
  split; [|split].
  - intros s H. induction H as [id | op s s' _ IH Hs].
    + constructor.
    + destruct (step_followed op s s' Hs) as [-> | (i & Hn & -> & _)]; auto.
      apply NoDup_snoc; assumption.
  - intros op s s' Hs. destruct (step_followed op s s' Hs) as [E | (i & Hn & E & _)]; eauto.
  - intros s H.
    assert (Inv : NoDup (followed_up_questions s) /\
                  incl (followed_up_questions s) (map qid (questions s))).
    { induction H as [id | op s s' _ IH Hs Ha].
      - split; [constructor | intros x []].
      - destruct IH as [Hnd Hin].
        destruct (step_followed _ _ _ Hs) as [E | (i & Hn & E & Hi & Hqs)].
        + assert (Hop : op = OAnalyze \/ op <> OAnalyze) by (destruct op; auto; right; discriminate).
          destruct Hop as [Hop | Hop].
          * rewrite E, (Ha Hop). split; [constructor | intros x []].
          * rewrite E, (step_questions _ _ _ Hs Hop). auto.
        + rewrite E, Hqs. split; [apply NoDup_snoc; assumption |].
          intros x Hx. apply in_app_or in Hx. destruct Hx as [Hx | [<- | []]]; auto. }
    destruct Inv as [Hnd Hin]. rewrite <- (length_map qid (questions s)).
    apply NoDup_incl_length; assumption.
Qed.

Lemma trace_followed_reachable : reachable_single_setup trace_followed.
Proof.
  apply (rss_step OProcessAnswer trace_setup).
  - apply (rss_step OAnalyze (new_session "s")); [constructor | constructor | reflexivity].
  - constructor.
  - discriminate.
Qed.

Lemma followed_up_invariant_witness :
  NoDup (followed_up_questions trace_followed) /\
  followed_up_questions trace_followed = [1%Z] /\
  (List.length (followed_up_questions trace_followed) <= List.length (questions trace_followed))%nat.
Proof.
  destruct followed_up_invariant as [Hnd [_ Hlen]].
  split; [| split; [reflexivity |]].
  - apply Hnd. apply (reachable_step OProcessAnswer trace_setup).
    + apply (reachable_step OAnalyze (new_session "s")); constructor.
    + constructor.
  - apply Hlen. apply trace_followed_reachable.
Defined.

(** C2 fails as stated: re-running [analyze_candidate] after a follow-up
    keeps the followed-up list while the new question list is empty. *)
Lemma followed_up_exceeds_questions :
  reachable trace_reanalysed /\
  followed_up_questions trace_reanalysed = [1%Z] /\ questions trace_reanalysed = [] /\
  (List.length (questions trace_reanalysed) < List.length (followed_up_questions trace_reanalysed))%nat.
Proof.
  split; [| split; [reflexivity | split; [reflexivity | simpl; lia]]].
  apply (reachable_step OAnalyze trace_followed); [| constructor].
  apply (reachable_step OProcessAnswer trace_setup); [| constructor].
  apply (reachable_step OAnalyze (new_session "s")); constructor.
Qed.

(** ** C4: status transitions *)

Lemma step_status op s s' :
  step op s s' ->
  (op <> OAnalyze -> status s' = status s \/ status s' = Completed) /\
  (op = OAnalyze -> status s' = Setup \/ status s' = Ready).
Proof.
  intros H; destruct H; split; intro Hop; try discriminate; try (exfalso; apply Hop; reflexivity).
  - apply analyze_candidate_effect.
  - apply get_next_question_effect.
  - apply process_answer_effect.
  - left; reflexivity.
Qed.

(** The status [analyze_candidate] leaves: [ready] exactly when all four
    stages succeed, and [setup] exactly when it raises. *)
Lemma analyze_candidate_status s cvt jdt cv_r jd_r b gap_r q_r s' res :
  analyze_candidate s cvt jdt cv_r jd_r b gap_r q_r = (s', res) ->
  (status s' = Ready <->
   exists cv jd gap qs, cv_r = GOk cv /\ jd_r = GOk jd /\ gap_r = GOk gap /\ q_r = GOk qs) /\
  (status s' = Setup <-> exists e, res = inr e).
Proof.
  unfold analyze_candidate.
  destruct cv_r as [cv|e1], jd_r as [jd|e2]; cbn [gather2];
    try (intro H; injection H as <- <-; cbn [status set_status];
         split; split; [discriminate | intros (? & ? & ? & ? & ? & ? & ? & ?); discriminate
                       | intros _; eexists; reflexivity | reflexivity]).
  destruct gap_r as [gap|e3];
    [| intro H; injection H as <- <-; cbn [status set_status set_profiles set_texts];
       split; split; [discriminate | intros (? & ? & ? & ? & ? & ? & ? & ?); discriminate
                     | intros _; eexists; reflexivity | reflexivity]].
  destruct q_r as [qs|e4];
    intro H; injection H as <- <-;
    cbn [status set_status set_questions set_gap set_profiles set_texts].
  - split; split.
    + intros _. exists cv, jd, gap, qs. auto.
    + reflexivity.
    + discriminate.
    + intros (? & ?); discriminate.
  - split; split.
    + discriminate.
    + intros (? & ? & ? & ? & ? & ? & ? & ?); discriminate.
    + intros _; eexists; reflexivity.
    + reflexivity.
Qed.

(** C4 (amended).  [get_next_question] and [process_answer] leave the status
    unchanged or set it to [completed]; [generate_final_report] never
    changes it; [analyze_candidate] sets it to [setup], then to [ready]
    when all stages succeed, whatever the status was before: it ends in
    [ready] exactly when the CV, JD, gap and question stages all succeed,
    and in [setup] exactly when it raises, so it can move a [ready] or
    [completed] session back.  No operation ever sets [interviewing] or
    [error]. *)
Theorem status_transitions :
  (forall op s s', step op s s' -> op <> OAnalyze ->
     status s' = status s \/ status s' = Completed) /\
  (forall s s', step OReport s s' -> status s' = status s) /\
  (forall op s s', step op s s' -> op = OAnalyze ->
     status s' = Setup \/ status s' = Ready) /\
  (forall s cvt jdt cv_r jd_r b gap_r q_r s' res,
     analyze_candidate s cvt jdt cv_r jd_r b gap_r q_r = (s', res) ->
     (status s' = Ready <->
      exists cv jd gap qs, cv_r = GOk cv /\ jd_r = GOk jd /\ gap_r = GOk gap /\ q_r = GOk qs) /\
     (status s' = Setup <-> exists e, res = inr e)) /\
  (forall s, reachable s -> status s <> Interviewing /\ status s <> Error).
Proof.
  split; [| split; [| split; [| split]]].
  - intros op s s' H. apply (step_status op s s' H).
  - intros s s' H. inversion H. reflexivity.
  - intros op s s' H. apply (step_status op s s' H).
  - exact analyze_candidate_status.
  - intros s H. induction H as [id | op s s' _ IH Hs].
    + split; discriminate.
    + destruct (step_status op s s' Hs) as [H1 H2].
      destruct op.
      * destruct (H2 eq_refl) as [-> | ->]; split; discriminate.
      * destruct (H1 ltac:(discriminate)) as [-> | ->]; [exact IH | split; discriminate].
      * destruct (H1 ltac:(discriminate)) as [-> | ->]; [exact IH | split; discriminate].
      * destruct (H1 ltac:(discriminate)) as [-> | ->]; [exact IH | split; discriminate].
Qed.

Lemma status_transitions_witness :
  status trace_completed = Completed /\
  status trace_setup = Ready /\
  status trace_followed <> Error.
Proof.
  destruct status_transitions as [H1 [_ [_ [H4 H5]]]].
  split; [| split].
  - destruct (H1 ONextQuestion (new_session "s") trace_completed (step_next _) ltac:(discriminate))
      as [E | E]; [discriminate E | exact E].
  - destruct (H4 (new_session "s") "CV Text" "JD Text" (GOk sample_cv) (GOk sample_jd)
                 false (GOk sample_gap) (GOk [sample_q1]) trace_setup
                 (snd (analyze_candidate (new_session "s") "CV Text" "JD Text" (GOk sample_cv)
                         (GOk sample_jd) false (GOk sample_gap) (GOk [sample_q1]))))
      as [[_ HR] _].
    + reflexivity.
    + apply HR. exists sample_cv, sample_jd, sample_gap, [sample_q1]. auto.
  - apply H5. apply (reachable_step OProcessAnswer trace_setup).
    + apply (reachable_step OAnalyze (new_session "s")); constructor.
    + constructor.
Defined.

(** C4 fails as stated: running the analysis on a completed session moves
    its status back to [setup]. *)
Lemma analysis_regresses_completed_status :
  reachable trace_completed /\ status trace_completed = Completed /\
  step OAnalyze trace_completed trace_reset /\ status trace_reset = Setup.
Proof.
  split; [| split; [reflexivity | split; [constructor | reflexivity]]].
  apply (reachable_step ONextQuestion (new_session "s")); constructor.
Qed.

(** ** C5: failure of an analysis stage *)

Lemma gather2_error {A B : Type} (a : GwResult A) (b : GwResult B) f e :
  gather2 a b f = GErr e -> a = GErr e \/ b = GErr e.
Proof.
  destruct a, b, f; simpl; intro H; first [discriminate | injection H as <-; auto].
Qed.

(** C5 (amended).  When a stage fails, [analyze_candidate] stops and raises
    a [RuntimeError] whose message names the stage and carries the cause's
    text; the session's status stays [setup] (it is not set to [error]),
    and the results of the stages that succeeded stay in the session. *)
Theorem analyze_candidate_stage_failure s cvt jdt cv_r jd_r b gap_r q_r s' res :
  analyze_candidate s cvt jdt cv_r jd_r b gap_r q_r = (s', res) ->
  (forall e, gather2 cv_r jd_r b = GErr e ->
     (cv_r = GErr e \/ jd_r = GErr e) /\
     res = inr (RuntimeError ("Failed to analyze documents: " ++ exn_str e)) /\
     status s' = Setup /\ cv_analysis s' = cv_analysis s /\ jd_analysis s' = jd_analysis s) /\
  (forall cv jd e, gather2 cv_r jd_r b = GOk (cv, jd) -> gap_r = GErr e ->
     res = inr (RuntimeError ("Failed to analyze gaps: " ++ exn_str e)) /\
     status s' = Setup /\ cv_analysis s' = Some cv /\ jd_analysis s' = Some jd /\
     gap_analysis s' = gap_analysis s) /\
  (forall cv jd g e, gather2 cv_r jd_r b = GOk (cv, jd) -> gap_r = GOk g -> q_r = GErr e ->
     res = inr (RuntimeError ("Failed to generate questions: " ++ exn_str e)) /\
     status s' = Setup /\ gap_analysis s' = Some g /\ questions s' = questions s).
Proof.
  unfold analyze_candidate. intro H. split; [| split].
  - intros e Hg. rewrite Hg in H. injection H as <- <-.
    split; [exact (gather2_error _ _ _ _ Hg) | auto].
  - intros cv jd e Hg Hgap. rewrite Hg, Hgap in H. injection H as <- <-. auto 6.
  - intros cv jd g e Hg Hgap Hq. rewrite Hg, Hgap, Hq in H. injection H as <- <-. auto.
Qed.

Lemma analyze_candidate_stage_failure_witness :
  snd (analyze_candidate (new_session "s") "CV Text" "JD Text" (GOk sample_cv) (GOk sample_jd)
         false (GErr (RuntimeError "All models failed.")) (GOk [sample_q1]))
  = inr (RuntimeError "Failed to analyze gaps: All models failed.") /\
  status (fst (analyze_candidate (new_session "s") "CV Text" "JD Text" (GOk sample_cv) (GOk sample_jd)
         false (GErr (RuntimeError "All models failed.")) (GOk [sample_q1]))) = Setup.
Proof.
  destruct (analyze_candidate_stage_failure (new_session "s") "CV Text" "JD Text"
              (GOk sample_cv) (GOk sample_jd) false (GErr (RuntimeError "All models failed."))
              (GOk [sample_q1]) _ _ (surjective_pairing _)) as [_ [H2 _]].
  destruct (H2 sample_cv sample_jd (RuntimeError "All models failed.") eq_refl eq_refl)
    as [Hr [Hs _]].
  split; [exact Hr | exact Hs].
Defined.

(** C5 fails as stated: after a failed gap analysis the session's status is
    [setup], not [error]. *)
Lemma failed_stage_leaves_setup_status :
  let '(s', res) := analyze_candidate (new_session "s") "CV Text" "JD Text" (GOk sample_cv)
                      (GOk sample_jd) false (GErr (RuntimeError "All models failed."))
                      (GOk [sample_q1]) in
  res = inr (RuntimeError "Failed to analyze gaps: All models failed.") /\
  status s' = Setup /\ status s' <> Error.
Proof. simpl. split; [reflexivity | split; [reflexivity | discriminate]]. Qed.

(** ** C10: the aggregates of the final report *)

Module FloatFacts.

Lemma rne_exact k d : (0 < d)%Z -> rne (k * d) d = k.
Proof.
  intro Hd. unfold rne. rewrite Z.div_mul by lia.
  replace (2 * (k * d - k * d))%Z with 0%Z by ring.
  destruct (Z.ltb_spec 0 d); [reflexivity | lia].
Qed.

Lemma rne_mono n1 n2 d : (0 < d)%Z -> (n1 <= n2)%Z -> (rne n1 d <= rne n2 d)%Z.
Proof.
  intros Hd Hn. unfold rne.
  pose proof (Z.div_mod n1 d ltac:(lia)) as E1.
  pose proof (Z.div_mod n2 d ltac:(lia)) as E2.
  pose proof (Z.mod_pos_bound n1 d Hd) as M1.
  pose proof (Z.mod_pos_bound n2 d Hd) as M2.
  pose proof (Z.div_le_mono n1 n2 d Hd Hn) as F.
  set (f1 := (n1 / d)%Z) in *. set (f2 := (n2 / d)%Z) in *.
  set (r1 := (n1 mod d)%Z) in *. set (r2 := (n2 mod d)%Z) in *.
  assert (R1 : (n1 - f1 * d = r1)%Z) by lia.
  assert (R2 : (n2 - f2 * d = r2)%Z) by lia.
  rewrite R1, R2.
  destruct (Z.eq_dec f1 f2) as [Ef | Ef].
  - rewrite Ef in E1. assert (Hr : (r1 <= r2)%Z) by lia. rewrite <- Ef.
    destruct (Z.ltb_spec (2 * r1) d), (Z.ltb_spec d (2 * r1)),
      (Z.ltb_spec (2 * r2) d), (Z.ltb_spec d (2 * r2)), (Z.even f1); lia.
  - destruct (Z.ltb_spec (2 * r1) d), (Z.ltb_spec d (2 * r1)),
      (Z.ltb_spec (2 * r2) d), (Z.ltb_spec d (2 * r2)), (Z.even f1), (Z.even f2); lia.
Qed.

Lemma rne_nonneg n d : (0 < d)%Z -> (0 <= n)%Z -> (0 <= rne n d)%Z.
Proof.
  intros Hd Hn. pose proof (rne_mono (0 * d) n d Hd ltac:(lia)) as H.
  rewrite rne_exact in H by exact Hd. exact H.
Qed.

Lemma flog2_le a b : (flog2 a b <= Z.log2 a - Z.log2 b)%Z.
Proof.
  unfold flog2.
  repeat match goal with |- context [if ?c then _ else _] => destruct c end; lia.
Qed.

Lemma log2_le_mul a b K :
  (0 < a)%Z -> (0 < b)%Z -> (0 < K)%Z -> (a <= K * b)%Z ->
  (Z.log2 a <= Z.log2 K + Z.log2 b + 1)%Z.
Proof.
  intros Ha Hb HK H.
  destruct (Z.log2_spec K HK) as [_ HK2].
  destruct (Z.log2_spec b Hb) as [_ Hb2].
  pose proof (Z.log2_nonneg K). pose proof (Z.log2_nonneg b).
  assert (Hlt : (a < 2 ^ (Z.log2 K + Z.log2 b + 2))%Z).
  { replace (Z.log2 K + Z.log2 b + 2)%Z with (Z.succ (Z.log2 K) + Z.succ (Z.log2 b))%Z by lia.
    rewrite Z.pow_add_r by lia. nia. }
  apply Z.log2_lt_pow2 in Hlt; [lia | exact Ha].
Qed.

Lemma pow2_pos k : (0 <= k)%Z -> (0 < 2 ^ k)%Z.
Proof. intro. apply Z.pow_pos_nonneg; lia. Qed.

(** A value between two integers below [2^52] rounds to a finite double
    between the same integers. *)
Lemma to_double_between q lo hi :
  (0 <= lo)%Z -> (hi < 2 ^ 52)%Z -> inject_Z lo <= q <= inject_Z hi ->
  exists v, to_double q = Fin v /\ inject_Z lo <= v <= inject_Z hi.
Proof.
  intros Hlo Hhi [Hq1 Hq2]. destruct q as [num den].
  unfold Qle in Hq1, Hq2. cbn [Qnum Qden inject_Z] in Hq1, Hq2.
  unfold to_double. cbn [Qnum Qden].
  destruct num as [|a|a].
  - exists 0. split; [reflexivity|]. unfold Qle; simpl. lia.
  - set (b := Z.pos den). assert (Hb : (0 < b)%Z) by (unfold b; lia).
    assert (Ha1 : (lo * b <= Z.pos a)%Z) by lia.
    assert (Ha2 : (Z.pos a <= hi * b)%Z) by lia.
    assert (Hhi0 : (0 < hi)%Z) by nia.
    pose proof (log2_le_mul (Z.pos a) b hi ltac:(lia) Hb Hhi0 Ha2) as L.
    assert (LK : (Z.log2 hi <= 51)%Z).
    { apply Z.lt_succ_r. apply Z.log2_lt_pow2; [exact Hhi0 | exact Hhi]. }
    pose proof (flog2_le (Z.pos a) b) as F.
    unfold binary64_pos.
    set (e := Z.max (flog2 (Z.pos a) b - 52) (-1074)).
    assert (He : (e <= 0)%Z) by (unfold e; lia).
    destruct (Z.leb_spec 0 e) as [He0 | He0].
    + assert (E0 : e = 0%Z) by lia. rewrite E0. rewrite Z.pow_0_r, !Z.mul_1_r.
      pose proof (rne_mono (lo * b) (Z.pos a) b Hb Ha1) as M1.
      pose proof (rne_mono (Z.pos a) (hi * b) b Hb Ha2) as M2.
      rewrite !rne_exact in M1, M2 by exact Hb.
      destruct (Z.leb_spec (2 ^ 1024) (rne (Z.pos a) b)) as [Hc|Hc].
      * exfalso. assert (Hp : (2 ^ 52 <= 2 ^ 1024)%Z) by (apply Z.pow_le_mono_r; lia). lia.
      * eexists; split; [reflexivity|]. unfold Qle; simpl. lia.
    + set (k := (- e)%Z). assert (Hk : (0 < 2 ^ k)%Z) by (apply pow2_pos; unfold k; lia).
      assert (B1 : (lo * 2 ^ k * b <= Z.pos a * 2 ^ k)%Z) by nia.
      assert (B2 : (Z.pos a * 2 ^ k <= hi * 2 ^ k * b)%Z) by nia.
      pose proof (rne_mono _ _ b Hb B1) as M1.
      pose proof (rne_mono _ _ b Hb B2) as M2.
      rewrite !rne_exact in M1, M2 by exact Hb.
      eexists; split; [reflexivity|].
      unfold Qle; cbn [Qnum Qden inject_Z]. rewrite Z2Pos.id by exact Hk. lia.
  - exfalso. lia.
Qed.

(** A positive integer converts to a positive double or to [inf]. *)
Lemma to_double_pos_int n d : (0 < n)%Z -> to_double (inject_Z n) = Fin d -> 0 < d.
Proof.
  intros Hn. destruct n as [|p|p]; try lia. unfold to_double, inject_Z. cbn [Qnum Qden].
  unfold binary64_pos.
  assert (Hl : flog2 (Z.pos p) 1 = Z.log2 (Z.pos p)).
  { unfold flog2. rewrite Z.log2_1, Z.sub_0_r.
    destruct (Z.log2_spec (Z.pos p) ltac:(lia)) as [S1 _].
    pose proof (Z.log2_nonneg (Z.pos p)).
    destruct (Z.leb_spec 0 (Z.log2 (Z.pos p))); [|lia].
    destruct (Z.leb_spec (1 * 2 ^ Z.log2 (Z.pos p)) (Z.pos p)); [reflexivity | lia]. }
  rewrite Hl.
  destruct (Z.log2_spec (Z.pos p) ltac:(lia)) as [S1 _].
  pose proof (Z.log2_nonneg (Z.pos p)) as L0.
  set (e := Z.max (Z.log2 (Z.pos p) - 52) (-1074)).
  assert (Ee : e = (Z.log2 (Z.pos p) - 52)%Z) by (unfold e; lia).
  destruct (Z.leb_spec 0 e) as [He0 | He0].
  - assert (Hp : (2 ^ 52 * (1 * 2 ^ e) <= Z.pos p)%Z).
    { rewrite Z.mul_1_l, <- Z.pow_add_r by lia.
      replace (52 + e)%Z with (Z.log2 (Z.pos p)) by lia. exact S1. }
    assert (Hk : (0 < 1 * 2 ^ e)%Z) by (rewrite Z.mul_1_l; apply pow2_pos; lia).
    pose proof (rne_mono _ _ _ Hk Hp) as M. rewrite rne_exact in M by exact Hk.
    destruct (2 ^ 1024 <=? _)%Z; intro Hf; [discriminate|].
    injection Hf as <-. unfold Qlt; cbn [Qnum Qden inject_Z]. change (0 * 1 < rne (Z.pos p) (1 * 2 ^ e) * 2 ^ e * 1)%Z.
    assert (H2 : (0 < 2 ^ e)%Z) by (apply pow2_pos; lia).
    assert (H3 : (0 < 2 ^ 52)%Z) by (apply pow2_pos; lia). nia.
  - intro Hf. injection Hf as <-.
    assert (Hk : (0 < 2 ^ (- e))%Z) by (apply pow2_pos; lia).
    change (0 < Qmake (rne (Z.pos p * 2 ^ (- e)) 1) (Z.to_pos (2 ^ (- e)))).
    rewrite <- (Z.mul_1_r (Z.pos p * 2 ^ (- e))), rne_exact by lia.
    unfold Qlt; cbn [Qnum Qden]. nia.
Qed.


Lemma round2_bounds x : 0 <= x <= 5 -> 0 <= round2 x <= 5.
Proof.
  intros [H0 H5]. unfold round2.
  assert (Hy0 : 0 <= Qred x) by (rewrite Qred_correct; exact H0).
  assert (Hy5 : Qred x <= 5) by (rewrite Qred_correct; exact H5).
  destruct (Qred x) as [num den]. unfold Qle in Hy0, Hy5. simpl in Hy0, Hy5.
  cbv zeta. cbn [Qnum Qden].
  pose proof (Z.div_mod (num * 100) (Z.pos den) ltac:(lia)) as Hd.
  pose proof (Z.mod_pos_bound (num * 100) (Z.pos den) ltac:(lia)) as Hm.
  set (fl := ((num * 100) / Z.pos den)%Z) in *.
  set (rm := ((num * 100) mod Z.pos den)%Z) in *.
  assert (Hfl : (0 <= fl <= 500)%Z) by nia.
  assert (Hr : (num * 100 - fl * Z.pos den = rm)%Z) by lia. rewrite Hr.
  destruct (2 * rm <? Z.pos den)%Z eqn:E1; destruct (Z.pos den <? 2 * rm)%Z eqn:E2;
    destruct (Z.even fl);
    rewrite ?Z.ltb_lt, ?Z.ltb_ge in E1; rewrite ?Z.ltb_lt, ?Z.ltb_ge in E2;
    unfold Qle; simpl; split; nia.
Qed.

Lemma py_round2_bounds v :
  0 <= v <= 5 -> exists w, py_round2 (Fin v) = Fin w /\ 0 <= w <= 5.
Proof.
  intro H. apply (to_double_between (round2 v) 0 5); [lia | reflexivity |].
  exact (round2_bounds v H).
Qed.

Lemma int_true_div_inl a b m :
  int_true_div a b = inl m -> m = to_double (inject_Z a / inject_Z b).
Proof.
  unfold int_true_div. destruct (b =? 0)%Z; [discriminate|].
  destruct (to_double _); congruence.
Qed.

Lemma int_true_div_nonzero a b :
  b <> 0%Z -> int_true_div a b <> inr ZeroDivisionError.
Proof.
  intro Hb. unfold int_true_div. destruct (Z.eqb_spec b 0); [contradiction|].
  destruct (to_double _); discriminate.
Qed.

Lemma float_div_int_nonzero x n :
  (0 < n)%Z -> float_div_int x n <> inr ZeroDivisionError.
Proof.
  intro Hn. unfold float_div_int.
  destruct (to_double (inject_Z n)) as [d| |] eqn:E; try discriminate.
  pose proof (to_double_pos_int n d Hn E) as Hd.
  destruct (Qeq_bool d 0) eqn:Z0; [|discriminate].
  apply Qeq_bool_iff in Z0. rewrite Z0 in Hd. discriminate Hd.
Qed.

Lemma mean_between t n :
  (0 < n)%Z -> (0 <= t <= 5 * n)%Z -> inject_Z 0 <= inject_Z t / inject_Z n <= inject_Z 5.
Proof.
  intros Hn Ht. destruct n as [|p|p]; try lia.
  assert (E : inject_Z t / inject_Z (Z.pos p) == t # p)
    by (unfold Qeq, Qdiv, Qmult, Qinv, inject_Z; simpl; lia).
  rewrite E. unfold Qle; simpl. lia.
Qed.

(** [total / len(scores)] for a dimension total within [0..5] per answer. *)
Lemma int_true_div_mean t n :
  (0 < n < 2 ^ 52)%Z -> (0 <= t <= 5 * n)%Z ->
  exists v, int_true_div t n = inl (Fin v) /\
            to_double (inject_Z t / inject_Z n) = Fin v /\ 0 <= v <= 5.
Proof.
  intros Hn Ht.
  destruct (to_double_between (inject_Z t / inject_Z n) 0 5 ltac:(lia) ltac:(reflexivity)
              (mean_between t n ltac:(lia) Ht)) as (v & Ev & Hv).
  exists v. unfold int_true_div. destruct (Z.eqb_spec n 0); [lia|].
  rewrite Ev. split; [reflexivity | split; [reflexivity | exact Hv]].
Qed.

(** [x / len(scores)] for fewer than [2^52] answers. *)
Lemma float_div_int_ok x n :
  (0 < n < 2 ^ 52)%Z -> exists m, float_div_int x n = inl m.
Proof.
  intros Hn. unfold float_div_int.
  destruct (to_double_between (inject_Z n) n n ltac:(lia) ltac:(lia)
              (conj (Qle_refl _) (Qle_refl _))) as (d & -> & Hd1 & _).
  destruct (Qeq_bool d 0) eqn:Z0; [|eexists; reflexivity].
  apply Qeq_bool_iff in Z0. rewrite Z0 in Hd1. unfold Qle in Hd1. simpl in Hd1. lia.
Qed.

End FloatFacts.

Lemma fold_left_Zadd l a : fold_left Z.add l a = (a + fold_right Z.add 0 l)%Z.
Proof.
  revert a. induction l as [|x l IH]; intro a; simpl; [lia | rewrite IH; lia].
Qed.

Lemma z_sum_dimension d sc :
  z_sum (map (fun s => dim_score d (scores s)) sc) =
  fold_right (fun s acc => (dim_score d (scores s) + acc)%Z) 0%Z sc.
Proof.
  unfold z_sum. rewrite fold_left_Zadd. simpl.
  induction sc as [|a l IH]; simpl; [reflexivity | lia].
Qed.

Lemma dimension_total_bounds d sc :
  scores_in_range sc ->
  (0 <= z_sum (map (fun s => dim_score d (scores s)) sc) <= 5 * Z.of_nat (List.length sc))%Z.
Proof.
  unfold scores_in_range. rewrite z_sum_dimension.
  induction 1 as [|a l Ha Hl IH]; simpl; [lia|].
  specialize (Ha d). lia.
Qed.

(** [rubric_avg] on a non-empty score list: the four divisions, then the
    one of the sum of the averages. *)
Lemma rubric_avg_cons b a l :
  rubric_avg b (a :: l) =
  sbind (int_true_div (z_sum (map (fun s => dim_score DRelevance (scores s)) (a :: l)))
                      (Z.of_nat (List.length (a :: l)))) (fun m1 =>
  sbind (int_true_div (z_sum (map (fun s => dim_score DDepth (scores s)) (a :: l)))
                      (Z.of_nat (List.length (a :: l)))) (fun m2 =>
  sbind (int_true_div (z_sum (map (fun s => dim_score DCompetency (scores s)) (a :: l)))
                      (Z.of_nat (List.length (a :: l)))) (fun m3 =>
  sbind (int_true_div (z_sum (map (fun s => dim_score DCommunication (scores s)) (a :: l)))
                      (Z.of_nat (List.length (a :: l)))) (fun m4 =>
  sbind (float_div_int (py_fsum b (map average_score (a :: l)))
                       (Z.of_nat (List.length (a :: l)))) (fun m =>
  inl [("relevance", py_round2 m1); ("depth", py_round2 m2);
       ("competency", py_round2 m3); ("communication", py_round2 m4);
       ("overall", py_round2 m)]))))).
Proof.
  unfold rubric_avg. cbn [fold_left sbind].
  destruct (int_true_div (z_sum (map (fun s => dim_score DRelevance (scores s)) (a :: l))) _);
    cbn [sbind]; [|reflexivity].
  destruct (int_true_div (z_sum (map (fun s => dim_score DDepth (scores s)) (a :: l))) _);
    cbn [sbind]; [|reflexivity].
  destruct (int_true_div (z_sum (map (fun s => dim_score DCompetency (scores s)) (a :: l))) _);
    cbn [sbind]; [|reflexivity].
  destruct (int_true_div (z_sum (map (fun s => dim_score DCommunication (scores s)) (a :: l))) _);
    cbn [sbind]; [|reflexivity].
  destruct (float_div_int _ _); reflexivity.
Qed.

(** Case analysis on the five divisions of [rubric_avg]. *)
Ltac aggregate_cases :=
  repeat (let E := fresh "E" in
          match goal with
          | |- context [sbind (int_true_div ?x ?y) _] =>
              destruct (int_true_div x y) eqn:E; cbn [sbind]
          | |- context [sbind (float_div_int ?x ?y) _] =>
              destruct (float_div_int x y) eqn:E; cbn [sbind]
          end).

Lemma rubric_avg_not_zero b sc : rubric_avg b sc <> inr ZeroDivisionError.
Proof.
  destruct sc as [|a l]; [discriminate|]. rewrite rubric_avg_cons.
  assert (Hn : (0 < Z.of_nat (List.length (a :: l)))%Z) by (simpl; lia).
  aggregate_cases; try discriminate; intro H; injection H as ->;
    match goal with
    | E : int_true_div ?x ?y = inr _ |- _ =>
        exact (FloatFacts.int_true_div_nonzero x y ltac:(lia) E)
    | E : float_div_int ?x ?y = inr _ |- _ =>
        exact (FloatFacts.float_div_int_nonzero x y Hn E)
    end.
Qed.




Lemma rubric_avg_entries b sc avg :
  sc <> [] -> rubric_avg b sc = inl avg ->
  (forall d, dict_get (dim_name d) avg =
     Some (py_round2 (to_double (inject_Z (z_sum (map (fun s => dim_score d (scores s)) sc))
                                 / inject_Z (Z.of_nat (List.length sc)))))) /\
  exists m, float_div_int (py_fsum b (map average_score sc)) (Z.of_nat (List.length sc)) = inl m /\
            dict_get "overall" avg = Some (py_round2 m).
Proof.
  intro Hne. destruct sc as [|a l]; [congruence|]. rewrite rubric_avg_cons.
  aggregate_cases; try discriminate.
  intro H. injection H as <-.
  repeat match goal with
         | E : int_true_div _ _ = inl _ |- _ => apply FloatFacts.int_true_div_inl in E; subst
         end.
  split; [intro d; destruct d; reflexivity |].
  match goal with E : float_div_int _ _ = inl ?m |- _ => exists m; split; reflexivity end.
Qed.

Lemma rubric_avg_ok b sc :
  scores_in_range sc -> (Z.of_nat (List.length sc) < 2 ^ 52)%Z ->
  exists avg, rubric_avg b sc = inl avg.
Proof.
  intros Hf Hl. destruct sc as [|a l]; [eexists; reflexivity|]. rewrite rubric_avg_cons.
  assert (Hn : (0 < Z.of_nat (List.length (a :: l)) < 2 ^ 52)%Z) by (simpl in *; lia).
  destruct (FloatFacts.int_true_div_mean _ _ Hn (dimension_total_bounds DRelevance _ Hf))
    as (v1 & -> & _).
  destruct (FloatFacts.int_true_div_mean _ _ Hn (dimension_total_bounds DDepth _ Hf))
    as (v2 & -> & _).
  destruct (FloatFacts.int_true_div_mean _ _ Hn (dimension_total_bounds DCompetency _ Hf))
    as (v3 & -> & _).
  destruct (FloatFacts.int_true_div_mean _ _ Hn (dimension_total_bounds DCommunication _ Hf))
    as (v4 & -> & _).
  destruct (FloatFacts.float_div_int_ok (py_fsum b (map average_score (a :: l))) _ Hn)
    as (m & ->).
  eexists; reflexivity.
Qed.

Lemma generate_final_report_ok b s rr rep :
  generate_final_report b s rr = inl rep ->
  rubric_avg b (session_scores s) = inl (rubric_scores rep) /\
  questions_answered rep = List.length (session_scores s).
Proof.
  unfold generate_final_report.
  destruct (rubric_avg b (session_scores s)) as [avg|]; [|discriminate].
  destruct (cv_analysis s), (jd_analysis s); try discriminate.
  destruct rr; [|discriminate]. destruct (gap_analysis s); [|discriminate].
  intro H. injection H as <-. auto.
Qed.

(** C10 (amended).  The aggregation never divides by zero.  When every
    rubric score is in the validated range and there are fewer than
    [2^52] answers, [generate_final_report] returns a report exactly when
    the session has its CV, JD and gap analyses and the recommendation
    call succeeds (a fresh session raises [AttributeError]).  An empty
    score list gives questions_answered = 0 and all five rubric entries
    0.0.  For a non-empty one, each dimension's entry is Python's
    [round(x, 2)] of the double nearest that dimension's mean, and
    ["overall"] is [round(x, 2)] of the float sum of the answers'
    averages divided by their number. *)
Theorem final_report_aggregates :
  (forall b sc, rubric_avg b sc <> inr ZeroDivisionError) /\
  (forall b s rr,
     scores_in_range (session_scores s) ->
     (Z.of_nat (List.length (session_scores s)) < 2 ^ 52)%Z ->
     ((exists rep, generate_final_report b s rr = inl rep) <->
      (cv_analysis s <> None /\ jd_analysis s <> None /\ gap_analysis s <> None /\
       exists r, rr = GOk r))) /\
  (forall b s rr rep, generate_final_report b s rr = inl rep -> session_scores s = [] ->
     questions_answered rep = 0%nat /\
     rubric_scores rep = [("relevance", Fin 0); ("depth", Fin 0); ("competency", Fin 0);
                          ("communication", Fin 0); ("overall", Fin 0)]) /\
  (forall b s rr rep, generate_final_report b s rr = inl rep -> session_scores s <> [] ->
     questions_answered rep = List.length (session_scores s) /\
     (forall d, dict_get (dim_name d) (rubric_scores rep)
                = Some (py_round2 (to_double (dimension_mean d (session_scores s))))) /\
     exists m, float_div_int (py_fsum b (map average_score (session_scores s)))
                             (Z.of_nat (List.length (session_scores s))) = inl m /\
               dict_get "overall" (rubric_scores rep) = Some (py_round2 m)).
Proof.
  split; [| split; [| split]].
  - exact rubric_avg_not_zero.
  - intros b s rr Hf Hl. unfold generate_final_report.
    destruct (rubric_avg_ok b _ Hf Hl) as [avg ->].
    split.
    + intros [rep H].
      destruct (cv_analysis s), (jd_analysis s); try discriminate.
      destruct rr; [|discriminate]. destruct (gap_analysis s); [|discriminate].
      repeat split; try discriminate. eexists; reflexivity.
    + intros (Hc & Hj & Hg & r & ->).
      destruct (cv_analysis s); [|congruence]. destruct (jd_analysis s); [|congruence].
      destruct (gap_analysis s); [|congruence]. eexists; reflexivity.
  - intros b s rr rep H E. destruct (generate_final_report_ok b s rr rep H) as [Ha Hq].
    rewrite E in Ha, Hq. simpl in Ha. injection Ha as <-. auto.
  - intros b s rr rep H E. destruct (generate_final_report_ok b s rr rep H) as [Ha Hq].
    destruct (rubric_avg_entries b _ _ E Ha) as [Hd Ho].
    split; [exact Hq | split; [| exact Ho]].
    intros d. rewrite Hd. unfold dimension_mean. rewrite z_sum_dimension. reflexivity.
Qed.

Lemma final_report_aggregates_witness :
  scores_in_range (session_scores trace_followed) /\
  (Z.of_nat (List.length (session_scores trace_followed)) < 2 ^ 52)%Z /\
  exists rep, generate_final_report true trace_followed (GOk sample_recommendation) = inl rep.
Proof.
  destruct final_report_aggregates as [_ [H2 _]].
  assert (Hf : scores_in_range (session_scores trace_followed)).
  { apply Forall_forall. intros a Ha d. vm_compute in Ha. destruct Ha as [<-|[]].
    destruct d; vm_compute; split; discriminate. }
  assert (Hl : (Z.of_nat (List.length (session_scores trace_followed)) < 2 ^ 52)%Z)
    by (vm_compute; reflexivity).
  split; [exact Hf | split; [exact Hl |]].
  apply (H2 true trace_followed (GOk sample_recommendation) Hf Hl).
  split; [vm_compute; discriminate | split; [vm_compute; discriminate |
    split; [vm_compute; discriminate | exists sample_recommendation; reflexivity]]].
Defined.

(** C10 fails as stated.  On a fresh session, whose score list is empty,
    [generate_final_report] raises [AttributeError] instead of returning
    a report.  And a dimension's entry is not its mean rounded to two
    decimals: forty answers whose relevance scores add up to 107 have the
    mean 2.675, which rounds to 2.68, but the double nearest 2.675 lies
    below it, and the report holds 2.67. *)
Lemma final_report_counterexamples :
  (forall b, session_scores (new_session "s") = [] /\
     generate_final_report b (new_session "s") (GOk sample_recommendation) = inr AttributeError) /\
  List.length (session_scores rounding_session) = 40%nat /\
  dimension_mean DRelevance (session_scores rounding_session) == 107 # 40 /\
  round2 (dimension_mean DRelevance (session_scores rounding_session)) = 268 # 100 /\
  (forall b, exists rep,
     generate_final_report b rounding_session (GOk sample_recommendation) = inl rep /\
     dict_get "relevance" (rubric_scores rep) = Some (to_double (267 # 100))) /\
  to_double (267 # 100) <> to_double (268 # 100).
Proof.
  split; [intro b; split; reflexivity |].
  split; [vm_compute; reflexivity |].
  split; [vm_compute; reflexivity |].
  split; [vm_compute; reflexivity |].
  split; [| vm_compute; discriminate].
  intro b.
  destruct (generate_final_report b rounding_session (GOk sample_recommendation)) as [rep|e] eqn:E.
  - exists rep. split; [reflexivity |].
    destruct b; vm_compute in E; injection E as <-; vm_compute; reflexivity.
  - exfalso. destruct b; vm_compute in E; discriminate E.
Qed.

(** ** C6 and C7: the gateway *)

Module GatewayFacts.
Import Gateway.

Lemma call_api_once_spec p m g :
  let '(g', r) := call_api_once p m g in
  requests g' = S (requests g) /\
  attempt_log g' = (attempt_log g ++ [(m, current_client_idx g)])%list /\
  sleep_log g' = sleep_log g /\
  r = match p (requests g) m (current_client_idx g) with Resp c => inl c | Fail e => inr e end.
Proof.
  unfold call_api_once, get_client. simpl.
  destruct (p (requests g) m (current_client_idx g)) as [c|e]; [|destruct (is_rate_limit e)];
    simpl; auto.
Qed.

Lemma retrying_spec p m left : forall n g,
  let '(g', r) := retrying p m n left g in
  (exists k c cl, (k <= left)%nat /\ r = inl c /\
     map fst (attempt_log g') = (map fst (attempt_log g) ++ repeat m (S k))%list /\
     sleep_log g' = (sleep_log g ++ map wait_exponential (seq n k))%list /\
     (exists pre, attempt_log g' = (pre ++ [(m, cl)])%list) /\
     p (requests g' - 1)%nat m cl = Resp c)
  \/
  (r = inr "RetryError" /\
   map fst (attempt_log g') = (map fst (attempt_log g) ++ repeat m (S left))%list /\
   sleep_log g' = (sleep_log g ++ map wait_exponential (seq n left))%list).
Proof.
  induction left as [|left IH]; intros n g; cbn [retrying];
    pose proof (call_api_once_spec p m g) as C;
    destruct (call_api_once p m g) as [g1 r1];
    destruct C as (Hreq & Hlog & Hsl & Hr);
    destruct (p (requests g) m (current_client_idx g)) as [c|e] eqn:Ep; subst r1.
  - left. exists 0%nat, c, (current_client_idx g).
    rewrite Hlog, Hsl, Hreq, map_app, app_nil_r. simpl. rewrite Nat.sub_0_r.
    repeat split; auto. eexists; reflexivity.
  - right. rewrite Hlog, Hsl, map_app, app_nil_r. auto.
  - left. exists 0%nat, c, (current_client_idx g).
    rewrite Hlog, Hsl, Hreq, map_app, app_nil_r. simpl. rewrite Nat.sub_0_r.
    repeat split; auto; try lia. eexists; reflexivity.
  - specialize (IH (S n) (sleep g1 (wait_exponential n))).
    destruct (retrying p m (S n) left (sleep g1 (wait_exponential n))) as [g' r].
    simpl in IH. rewrite Hlog, Hsl in IH. rewrite map_app in IH.
    destruct IH as [(k & c & cl & Hk & -> & Hl & Hs & Hpre & Hp) | (-> & Hl & Hs)].
    + left. exists (S k), c, cl. repeat split; auto; try lia.
      * rewrite Hl, <- app_assoc. reflexivity.
      * rewrite Hs, <- app_assoc. reflexivity.
    + right. split; [reflexivity | split].
      * rewrite Hl, <- app_assoc. reflexivity.
      * rewrite Hs, <- app_assoc. reflexivity.
Qed.

Lemma waits_first_attempts k : (k <= 2)%nat -> map wait_exponential (seq 1 k) = repeat 2%nat k.
Proof. intro H. destruct k as [|[|[|k]]]; try reflexivity. lia. Qed.

Lemma call_api_raw_spec p m g :
  let '(g', r) := call_api_raw p m g in
  (exists k c cl, (1 <= k <= 3)%nat /\ r = inl c /\
     map fst (attempt_log g') = (map fst (attempt_log g) ++ repeat m k)%list /\
     sleep_log g' = (sleep_log g ++ repeat 2%nat (k - 1))%list /\
     (exists pre, attempt_log g' = (pre ++ [(m, cl)])%list) /\
     p (requests g' - 1)%nat m cl = Resp c)
  \/
  (r = inr "RetryError" /\
   map fst (attempt_log g') = (map fst (attempt_log g) ++ [m; m; m])%list /\
   sleep_log g' = (sleep_log g ++ [2%nat; 2%nat])%list).
Proof.
  unfold call_api_raw. pose proof (retrying_spec p m 2 1 g) as R.
  destruct (retrying p m 1 2 g) as [g' r].
  destruct R as [(k & c & cl & Hk & Hr & Hl & Hs & Hpre & Hp) | (Hr & Hl & Hs)].
  - left. exists (S k), c, cl. repeat split; auto; try lia.
    rewrite Hs, waits_first_attempts by lia. simpl. rewrite Nat.sub_0_r. reflexivity.
  - right. auto.
Qed.

Lemma fallback_spec p ms : forall g,
  let '(g', r) := fallback p ms g in
  (r = inr "All models failed." /\
   map fst (attempt_log g') = (map fst (attempt_log g) ++ tries ms)%list /\
   sleep_log g' = (sleep_log g ++ repeat 2%nat (2 * List.length ms))%list)
  \/
  (exists i k c m cl, nth_error ms i = Some m /\ (1 <= k <= 3)%nat /\ r = inl c /\
   map fst (attempt_log g') = (map fst (attempt_log g) ++ tries (firstn i ms) ++ repeat m k)%list /\
   sleep_log g' = (sleep_log g ++ repeat 2%nat (2 * i + (k - 1)))%list /\
   (exists pre, attempt_log g' = (pre ++ [(m, cl)])%list) /\
   p (requests g' - 1)%nat m cl = Resp c).
Proof.
  induction ms as [|m ms IH]; intro g.
  - simpl. left. rewrite !app_nil_r. auto.
  - cbn [fallback List.length]. pose proof (call_api_raw_spec p m g) as C.
    destruct (call_api_raw p m g) as [g1 r1].
    destruct C as [(k & c & cl & Hk & -> & Hl & Hs & Hpre & Hp) | (-> & Hl & Hs)].
    + right. exists 0%nat, k, c, m, cl. simpl. repeat split; auto; lia.
    + specialize (IH g1). destruct (fallback p ms g1) as [g' r].
      destruct IH as [(Hr & Hl' & Hs') | (i & k & c & m' & cl & Hi & Hk & Hr & Hl' & Hs' & Hpre & Hp)].
      * left. split; [exact Hr | split].
        -- rewrite Hl', Hl, <- app_assoc. reflexivity.
        -- rewrite Hs', Hs, <- app_assoc. f_equal.
           replace (2 * S (List.length ms))%nat with (2 + 2 * List.length ms)%nat by lia.
           reflexivity.
      * right. exists (S i), k, c, m', cl. repeat split; auto; try lia.
        -- rewrite Hl', Hl, <- !app_assoc. reflexivity.
        -- rewrite Hs', Hs, <- app_assoc. f_equal.
           replace (2 * S i + (k - 1))%nat with (2 + (2 * i + (k - 1)))%nat by lia.
           reflexivity.
Qed.

Lemma generate_text_fallback p g : generate_text p g = fallback p cascade g.
Proof. reflexivity. Qed.

End GatewayFacts.

(** C6.  [generate_text] raises only "All models failed.", and only after
    the primary model and then each fallback model, in order, were tried
    three times each, with tenacity's 2 s waits between the attempts on a
    model (the waits of [wait_exponential] lie between 2 and 10 seconds).
    When it returns, the value is the content of the provider's successful
    response to the last request, sent to the [i]-th model of the cascade
    after [k] attempts on it, every earlier model having been tried three
    times. *)
Theorem generate_text_exhausts_models (p : Gateway.Provider) (g : Gateway.Gw) :
  (forall n, (2 <= Gateway.wait_exponential n <= 10)%nat) /\
  let '(g', r) := Gateway.generate_text p g in
  (r = inr "All models failed." /\
   map fst (Gateway.attempt_log g') =
     (map fst (Gateway.attempt_log g) ++
      ["llama-3.3-70b-versatile"; "llama-3.3-70b-versatile"; "llama-3.3-70b-versatile";
       "qwen-2.5-32b"; "qwen-2.5-32b"; "qwen-2.5-32b";
       "llama-3.1-8b-instant"; "llama-3.1-8b-instant"; "llama-3.1-8b-instant"])%list /\
   Gateway.sleep_log g' = (Gateway.sleep_log g ++ [2; 2; 2; 2; 2; 2]%nat)%list)
  \/
  (exists i k c m cl,
     nth_error Gateway.cascade i = Some m /\ (1 <= k <= 3)%nat /\ r = inl c /\
     map fst (Gateway.attempt_log g') =
       (map fst (Gateway.attempt_log g) ++ Gateway.tries (firstn i Gateway.cascade)
        ++ repeat m k)%list /\
     Gateway.sleep_log g' = (Gateway.sleep_log g ++ repeat 2%nat (2 * i + (k - 1)))%list /\
     (exists pre, Gateway.attempt_log g' = (pre ++ [(m, cl)])%list) /\
     p (Gateway.requests g' - 1)%nat m cl = Gateway.Resp c).
Proof.
  split.
  - intro n. unfold Gateway.wait_exponential. lia.
  - rewrite GatewayFacts.generate_text_fallback.
    exact (GatewayFacts.fallback_spec p Gateway.cascade g).
Qed.

(** C7 (code_bug).  With two API keys, a rate-limited request on key 0
    leaves the rotation pointer on key 0: the round-robin advance and the
    extra advance cancel out, so the retry is sent with the throttled key. *)
Theorem rate_limit_two_keys_reacquires :
  Gateway.current_client_idx (fst (Gateway.call_api_once rate_limited_once
                                     Gateway.primary_model two_key_gateway)) = 0%nat /\
  Gateway.attempt_log (fst (Gateway.generate_text rate_limited_once two_key_gateway)) =
    [(Gateway.primary_model, 0%nat); (Gateway.primary_model, 0%nat)].
Proof. split; reflexivity. Qed.

(** * Further properties of the code *)

(** ** Key rotation *)

Module RotationFacts.
Import Gateway GatewaySetup.

Lemma mod_lt2 x n : (x < 2 * n)%nat -> x mod n = (if Nat.ltb x n then x else x - n)%nat.
Proof.
  intro H. destruct (Nat.ltb x n) eqn:E.
  - apply Nat.ltb_lt in E. apply Nat.mod_small. exact E.
  - apply Nat.ltb_ge in E. symmetry. apply (Nat.mod_unique x n 1); lia.
Qed.

Lemma rotate_injective n i a b :
  (i < n)%nat -> (a < n)%nat -> (b < n)%nat -> (i + a) mod n = (i + b) mod n -> a = b.
Proof.
  intros Hi Ha Hb H.
  rewrite (mod_lt2 (i + a) n), (mod_lt2 (i + b) n) in H by lia.
  destruct (Nat.ltb (i + a) n) eqn:E1, (Nat.ltb (i + b) n) eqn:E2;
    apply Nat.ltb_lt in E1 || apply Nat.ltb_ge in E1;
    apply Nat.ltb_lt in E2 || apply Nat.ltb_ge in E2; lia.
Qed.

Lemma acquire_spec k : forall g,
  (0 < n_clients g)%nat -> (current_client_idx g < n_clients g)%nat ->
  fst (acquire k g) =
    map (fun j => (current_client_idx g + j) mod n_clients g)%nat (seq 0 k) /\
  n_clients (snd (acquire k g)) = n_clients g /\
  current_client_idx (snd (acquire k g)) = ((current_client_idx g + k) mod n_clients g)%nat.
Proof.
  induction k as [|k IH]; intros g Hn Hi.
  - simpl. rewrite Nat.add_0_r, Nat.mod_small by exact Hi. auto.
  - cbn [acquire]. unfold get_client.
    set (g1 := set_idx g ((current_client_idx g + 1) mod n_clients g)).
    assert (Hn1 : n_clients g1 = n_clients g) by reflexivity.
    assert (Hi1 : current_client_idx g1 = ((current_client_idx g + 1) mod n_clients g)%nat)
      by reflexivity.
    destruct (IH g1) as (Hc & Hn' & Hi'); [lia | rewrite Hn1, Hi1; apply Nat.mod_upper_bound; lia |].
    destruct (acquire k g1) as [cs g2]. simpl fst in *. simpl snd in *.
    rewrite Hn1, Hi1 in *. repeat split.
    + change (seq 0 (S k)) with (0 :: seq 1 k)%nat. cbn [map].
      rewrite Nat.add_0_r, (Nat.mod_small (current_client_idx g)) by exact Hi. f_equal.
      rewrite Hc, <- seq_shift, map_map. apply map_ext. intro j.
      rewrite Nat.Div0.add_mod_idemp_l. f_equal. lia.
    + exact Hn'.
    + rewrite Hi', Nat.Div0.add_mod_idemp_l. f_equal. lia.
Qed.

Lemma call_api_once_clients p m g :
  n_clients (fst (call_api_once p m g)) = n_clients g /\
  ((0 < n_clients g)%nat -> (current_client_idx (fst (call_api_once p m g)) < n_clients g)%nat).
Proof.
  unfold call_api_once, get_client. simpl.
  destruct (p (requests g) m (current_client_idx g)) as [c|e]; [|destruct (is_rate_limit e)];
    simpl; split; auto; intro; apply Nat.mod_upper_bound; lia.
Qed.

Lemma retrying_clients p m left : forall n g,
  n_clients (fst (retrying p m n left g)) = n_clients g /\
  ((0 < n_clients g)%nat -> (current_client_idx (fst (retrying p m n left g)) < n_clients g)%nat).
Proof.
  induction left as [|left IH]; intros n g; cbn [retrying];
    pose proof (call_api_once_clients p m g) as [Hn Hi];
    destruct (call_api_once p m g) as [g1 [c|e]]; simpl in *; auto.
  destruct (IH (S n) (sleep g1 (wait_exponential n))) as [Hn' Hi'].
  simpl in Hn', Hi'. rewrite Hn' in *. rewrite Hn in *. auto.
Qed.

Lemma fallback_clients p ms : forall g,
  n_clients (fst (fallback p ms g)) = n_clients g /\
  ((current_client_idx g < n_clients g)%nat ->
   (current_client_idx (fst (fallback p ms g)) < n_clients g)%nat).
Proof.
  induction ms as [|m ms IH]; intro g; simpl; auto.
  unfold call_api_raw. pose proof (retrying_clients p m 2 1 g) as [Hn Hi].
  destruct (retrying p m 1 2 g) as [g1 [c|e]]; simpl in *; auto.
  - split; auto. intro. apply Hi. lia.
  - destruct (IH g1) as [Hn' Hi']. rewrite Hn', Hn. split; auto.
    intro. rewrite <- Hn. apply Hi'. rewrite Hn. apply Hi. lia.
Qed.

End RotationFacts.

(** [_get_client] is a round robin: from a valid pointer, [n] consecutive
    acquisitions on a gateway with [n] clients use the indices
    [idx, idx+1, ...] modulo [n], so each client exactly once, and leave
    the pointer where it started. *)
Theorem get_client_round_robin (g : Gateway.Gw) :
  (0 < Gateway.n_clients g)%nat -> (Gateway.current_client_idx g < Gateway.n_clients g)%nat ->
  let n := Gateway.n_clients g in
  fst (GatewaySetup.acquire n g) =
    map (fun j => (Gateway.current_client_idx g + j) mod n)%nat (seq 0 n) /\
  Permutation (fst (GatewaySetup.acquire n g)) (seq 0 n) /\
  Gateway.current_client_idx (snd (GatewaySetup.acquire n g)) = Gateway.current_client_idx g.
Proof.
  intros Hn Hi n.
  destruct (RotationFacts.acquire_spec n g Hn Hi) as (Hc & _ & Hidx).
  split; [exact Hc | split].
  - rewrite Hc. apply NoDup_Permutation_bis.
    + apply NoDup_map_NoDup_ForallPairs; [|apply seq_NoDup].
      intros a b Ha Hb Heq. apply in_seq in Ha, Hb.
      apply (RotationFacts.rotate_injective n (Gateway.current_client_idx g)); auto; lia.
    + rewrite length_map. lia.
    + intros x Hx. apply in_map_iff in Hx. destruct Hx as (j & <- & _).
      apply in_seq. split; [lia|]. simpl. apply Nat.mod_upper_bound. lia.
  - rewrite Hidx. unfold n.
    replace (Gateway.current_client_idx g + Gateway.n_clients g)%nat
      with (Gateway.current_client_idx g + 1 * Gateway.n_clients g)%nat by lia.
    rewrite Nat.Div0.mod_add. apply Nat.mod_small. exact Hi.
Qed.

Lemma get_client_round_robin_witness :
  (0 < Gateway.n_clients (Gateway.mkGw 3 2 0 [] []))%nat /\
  (Gateway.current_client_idx (Gateway.mkGw 3 2 0 [] []) < Gateway.n_clients (Gateway.mkGw 3 2 0 [] []))%nat /\
  fst (GatewaySetup.acquire 3 (Gateway.mkGw 3 2 0 [] [])) = [2; 0; 1]%nat.
Proof.
  split; [simpl; lia | split; [simpl; lia |]].
  pose proof (get_client_round_robin (Gateway.mkGw 3 2 0 [] [])) as H.
  destruct H as [H _]; [simpl; lia | simpl; lia |]. exact H.
Defined.

(** [generate_text] keeps the number of clients and, from a valid
    pointer, leaves the rotation pointer a valid index into
    [self.clients], so the next [_get_client] never indexes out of range. *)
Theorem generate_text_pointer_in_range (p : Gateway.Provider) (g : Gateway.Gw) :
  (Gateway.current_client_idx g < Gateway.n_clients g)%nat ->
  let g' := fst (Gateway.generate_text p g) in
  Gateway.n_clients g' = Gateway.n_clients g /\
  (Gateway.current_client_idx g' < Gateway.n_clients g')%nat.
Proof.
  intros Hi g'. unfold g'. rewrite GatewayFacts.generate_text_fallback.
  destruct (RotationFacts.fallback_clients p Gateway.cascade g) as [Hn Hi'].
  rewrite Hn. auto.
Qed.

Lemma generate_text_pointer_in_range_witness :
  (Gateway.current_client_idx two_key_gateway < Gateway.n_clients two_key_gateway)%nat /\
  (let g' := fst (Gateway.generate_text rate_limited_once two_key_gateway) in
   Gateway.n_clients g' = Gateway.n_clients two_key_gateway /\
   (Gateway.current_client_idx g' < Gateway.n_clients g')%nat).
Proof.
  split; [simpl; lia |].
  apply (generate_text_pointer_in_range rate_limited_once two_key_gateway). simpl; lia.
Defined.

(** After a failed request with client [c], the pointer moves one client
    on, or two when the error is a rate limit ("429"); so after a rate
    limit the next acquisition uses the same client exactly when the
    gateway has at most two clients. *)
Theorem call_api_once_failure_rotation (p : Gateway.Provider) (m : string) (g : Gateway.Gw) (e : string) :
  (Gateway.current_client_idx g < Gateway.n_clients g)%nat ->
  p (Gateway.requests g) m (Gateway.current_client_idx g) = Gateway.Fail e ->
  let c := Gateway.current_client_idx g in
  let n := Gateway.n_clients g in
  let '(g', r) := Gateway.call_api_once p m g in
  r = inr e /\
  Gateway.current_client_idx g' =
    ((c + if Gateway.is_rate_limit e then 2 else 1) mod n)%nat /\
  (Gateway.is_rate_limit e = true -> (Gateway.current_client_idx g' = c <-> (n <= 2)%nat)).
Proof.
  intros Hi Hp c n. unfold Gateway.call_api_once, Gateway.get_client. simpl. rewrite Hp.
  assert (Hn : n <> 0%nat) by (unfold n; lia).
  destruct (Gateway.is_rate_limit e); simpl; (split; [reflexivity | split]).
  - fold c n. rewrite Nat.Div0.add_mod_idemp_l. f_equal. lia.
  - intros _. fold c n.
    rewrite Nat.Div0.add_mod_idemp_l.
    replace (c + 1 + 1)%nat with (c + 2)%nat by lia.
    assert (Hc : (c < n)%nat) by exact Hi.
    destruct (Nat.eq_dec n 1) as [E1|E1].
    + rewrite E1. assert (Hc0 : c = 0%nat) by lia. rewrite Hc0.
      split; intros _; [lia | reflexivity].
    + rewrite (RotationFacts.mod_lt2 (c + 2) n) by lia.
      destruct (Nat.ltb (c + 2) n) eqn:E; [apply Nat.ltb_lt in E | apply Nat.ltb_ge in E];
        split; intro; lia.
  - reflexivity.
  - discriminate.
Qed.

Lemma call_api_once_failure_rotation_witness :
  (Gateway.current_client_idx (Gateway.mkGw 3 1 0 [] []) < Gateway.n_clients (Gateway.mkGw 3 1 0 [] []))%nat /\
  rate_limited_once (Gateway.requests (Gateway.mkGw 3 1 0 [] [])) Gateway.primary_model
    (Gateway.current_client_idx (Gateway.mkGw 3 1 0 [] [])) =
    Gateway.Fail "Error code: 429 - Rate limit reached" /\
  Gateway.current_client_idx (fst (Gateway.call_api_once rate_limited_once Gateway.primary_model
                                     (Gateway.mkGw 3 1 0 [] []))) = 0%nat.
Proof.
  assert (H1 : (Gateway.current_client_idx (Gateway.mkGw 3 1 0 [] []) <
                Gateway.n_clients (Gateway.mkGw 3 1 0 [] []))%nat) by (simpl; lia).
  assert (H2 : rate_limited_once (Gateway.requests (Gateway.mkGw 3 1 0 [] [])) Gateway.primary_model
                 (Gateway.current_client_idx (Gateway.mkGw 3 1 0 [] [])) =
               Gateway.Fail "Error code: 429 - Rate limit reached") by reflexivity.
  split; [exact H1 | split; [exact H2 |]].
  pose proof (call_api_once_failure_rotation rate_limited_once Gateway.primary_model
                (Gateway.mkGw 3 1 0 [] []) _ H1 H2) as H.
  simpl in H. destruct H as (_ & H & _). exact H.
Defined.

(** ** API keys *)

Module KeyFacts.
Import Gateway GatewaySetup.

Lemma string_app_assoc (a b c : string) : (a ++ b) ++ c = a ++ (b ++ c).
Proof. induction a as [|x a IH]; simpl; [reflexivity | rewrite IH; reflexivity]. Qed.

Lemma string_app_nil_r (a : string) : a ++ "" = a.
Proof. induction a as [|x a IH]; simpl; [reflexivity | rewrite IH; reflexivity]. Qed.

Lemma string_app_neq_nil (a b : string) : b <> "" -> a ++ b <> "".
Proof. destruct a; simpl; [auto | discriminate]. Qed.


Lemma rstrip_app_kept f s u :
  rstrip_by f u <> "" -> rstrip_by f (s ++ u) = s ++ rstrip_by f u.
Proof.
  intro Hu. induction s as [|a s IH]; simpl; [reflexivity|].
  rewrite IH. destruct (String.eqb (s ++ rstrip_by f u) "") eqn:E.
  - apply String.eqb_eq in E. exfalso. exact (string_app_neq_nil s _ Hu E).
  - reflexivity.
Qed.






Lemma add_key_ok ks k : keys_ok ks -> keys_ok (add_key ks k).
Proof.
  intros [Hd Hf]. unfold add_key.
  destruct (String.eqb k "") eqn:E; [split; auto|].
  destruct (existsb (String.eqb k) ks) eqn:E2; [split; auto|]. simpl.
  apply String.eqb_neq in E. split.
  - apply (Permutation_NoDup (Permutation_cons_append ks k)). constructor; [|exact Hd].
    intro Hin. assert (existsb (String.eqb k) ks = true) as Hx
      by (apply existsb_exists; exists k; split; [exact Hin | apply String.eqb_refl]).
    rewrite Hx in E2. discriminate.
  - apply Forall_app. auto.
Qed.

Lemma fold_add_key_ok {X : Type} (h : X -> option string) xs : forall ks,
  keys_ok ks ->
  keys_ok (fold_left (fun keys x => match h x with Some key => add_key keys key | None => keys end) xs ks).
Proof.
  induction xs as [|x xs IH]; intros ks H; simpl; [exact H|].
  apply IH. destruct (h x); [apply add_key_ok|]; exact H.
Qed.

Lemma add_key_nonnil ks k : ks <> [] -> add_key ks k <> [].
Proof.
  intro H. unfold add_key.
  destruct (negb (String.eqb k "") && negb (existsb (String.eqb k) ks)); [|exact H].
  destruct ks; [congruence | discriminate].
Qed.

Lemma add_key_nonnil_key ks k : k <> "" -> add_key ks k <> [].
Proof.
  intro Hk. destruct ks as [|x ks]; [|apply add_key_nonnil; discriminate].
  unfold add_key. simpl. destruct (String.eqb k "") eqn:E.
  - apply String.eqb_eq in E. contradiction.
  - discriminate.
Qed.

Lemma fold_env_nonnil (env : string -> option string) vars : forall ks,
  (ks <> [] \/ exists v k, In v vars /\ env v = Some k /\ k <> "") ->
  fold_left (fun keys var_name =>
     match env var_name with Some key => add_key keys key | None => keys end) vars ks <> [].
Proof.
  induction vars as [|v vars IH]; intros ks H; simpl.
  - destruct H as [H | (v & k & [] & _)]. exact H.
  - apply IH. destruct H as [H | (v' & k & [<- | Hin] & He & Hk)].
    + left. destruct (env v); [apply add_key_nonnil|]; exact H.
    + left. rewrite He. apply add_key_nonnil_key. exact Hk.
    + destruct (list_eq_dec String.string_dec
                  (match env v with Some key => add_key ks key | None => ks end) []) as [E|E].
      * right. exists v', k. auto.
      * left. exact E.
Qed.




End KeyFacts.

(** [_load_api_keys] returns distinct, non-empty keys, whatever the
    environment and the [.env] file hold. *)
Theorem load_api_keys_distinct_nonempty (env : string -> option string)
    (dotenv : option (list string)) :
  NoDup (GatewaySetup.load_api_keys env dotenv) /\
  Forall (fun k => k <> "") (GatewaySetup.load_api_keys env dotenv).
Proof.
  unfold GatewaySetup.load_api_keys.
  pose proof (KeyFacts.fold_add_key_ok env GatewaySetup.env_vars [] (conj (NoDup_nil _) (Forall_nil _)))
    as Henv.
  destruct (fold_left _ GatewaySetup.env_vars []) as [|k ks] eqn:E; [|exact Henv].
  destruct dotenv as [lines|]; [|exact Henv].
  apply KeyFacts.fold_add_key_ok. exact Henv.
Qed.

(** When one of [GROQ_API_KEY], [GROQ_API_KEY_2], [GROQ_API_KEY_3] is
    set to a non-empty value, the [.env] file is not read. *)
Theorem load_api_keys_env_first (env : string -> option string) (dotenv : option (list string)) :
  (exists v k, In v GatewaySetup.env_vars /\ env v = Some k /\ k <> "") ->
  GatewaySetup.load_api_keys env dotenv = GatewaySetup.load_api_keys env None.
Proof.
  intro H. unfold GatewaySetup.load_api_keys.
  pose proof (KeyFacts.fold_env_nonnil env GatewaySetup.env_vars [] (or_intror H)) as Hn.
  destruct (fold_left _ GatewaySetup.env_vars []); [congruence | reflexivity].
Qed.

Lemma load_api_keys_env_first_witness :
  (exists v k, In v GatewaySetup.env_vars /\
     (fun v => if String.eqb v "GROQ_API_KEY_2" then Some "k2" else None) v = Some k /\ k <> "") /\
  GatewaySetup.load_api_keys (fun v => if String.eqb v "GROQ_API_KEY_2" then Some "k2" else None)
    (Some [env_line "k1"]) = ["k2"].
Proof.
  assert (H : exists v k, In v GatewaySetup.env_vars /\
     (fun v => if String.eqb v "GROQ_API_KEY_2" then Some "k2" else None) v = Some k /\ k <> "").
  { exists "GROQ_API_KEY_2", "k2". split; [simpl; auto | split; [reflexivity | discriminate]]. }
  split; [exact H |].
  rewrite (load_api_keys_env_first _ _ H). reflexivity.
Defined.



(** ** Structured output *)

Module CleanFacts.
Import Gateway GatewaySetup KeyFacts.

Lemma prefix_app_l a b s : String.prefix (a ++ b) s = true -> String.prefix a s = true.
Proof.
  revert s. induction a as [|x a IH]; intros s H; [destruct s; reflexivity|].
  destruct s as [|y s]; [discriminate|]. simpl in *.
  destruct (ascii_dec x y); [apply IH; exact H | discriminate].
Qed.

Lemma contains_app_l a b s : contains a s = false -> contains (a ++ b) s = false.
Proof.
  induction s as [|y s IH]; cbn [contains]; intro H.
  - destruct a; [simpl in H; discriminate H | reflexivity].
  - apply orb_false_iff in H as [H1 H2]. rewrite (IH H2), orb_false_r.
    destruct (String.prefix (a ++ b) (String y s)) eqn:E; [|reflexivity].
    rewrite (prefix_app_l a b _ E) in H1. exact H1.
Qed.

Lemma prefix_snoc_absent pat s c :
  ~ In c (list_ascii_of_string pat) -> String.prefix pat s = false ->
  String.prefix pat (s ++ String c "") = false.
Proof.
  revert s. induction pat as [|a pat IH]; intros s Hc H; [destruct s; discriminate|].
  destruct s as [|b s]; simpl in *.
  - destruct (ascii_dec a c) as [->|]; [exfalso; apply Hc; left; reflexivity | reflexivity].
  - destruct (ascii_dec a b); [|reflexivity].
    apply IH; [intro Hin; apply Hc; right; exact Hin | exact H].
Qed.

Lemma contains_snoc_absent pat s c :
  pat <> "" -> ~ In c (list_ascii_of_string pat) -> contains pat s = false ->
  contains pat (s ++ String c "") = false.
Proof.
  intros Hp Hc. induction s as [|b s IH]; cbn [contains append]; intro H.
  - pose proof (prefix_snoc_absent pat "" c Hc H) as P. cbn [append] in P.
    rewrite P, H. reflexivity.
  - apply orb_false_iff in H as [H1 H2].
    rewrite (IH H2), orb_false_r. exact (prefix_snoc_absent pat (String b s) c Hc H1).
Qed.

Lemma replace_fuel_absent n pat rep : forall s,
  contains pat s = false -> replace_fuel n pat rep s = s.
Proof.
  induction n as [|n IH]; intros s H; [reflexivity|].
  destruct s as [|c s]; [reflexivity|]. cbn [contains] in H. apply orb_false_iff in H as [H1 H2].
  cbn [replace_fuel]. rewrite H1, (IH s H2). reflexivity.
Qed.

Lemma prefix_self_app a q : String.prefix a (a ++ q) = true.
Proof.
  induction a as [|x a IH]; [destruct q; reflexivity|]. simpl.
  destruct (ascii_dec x x) as [_|n]; [exact IH | congruence].
Qed.

Lemma substring_app a q m : substring (String.length a) m (a ++ q) = substring 0 m q.
Proof.
  induction a as [|x a IH]; [reflexivity|]. simpl. exact IH.
Qed.

Lemma string_length_app a b : String.length (a ++ b) = (String.length a + String.length b)%nat.
Proof. induction a as [|x a IH]; simpl; [reflexivity | rewrite IH; reflexivity]. Qed.

Lemma substring_full m q : (String.length q <= m)%nat -> substring 0 m q = q.
Proof.
  revert m. induction q as [|x q IH]; intros m H; destruct m; simpl in *; try reflexivity.
  - lia.
  - rewrite IH by lia. reflexivity.
Qed.

Lemma replace_fuel_step n pat rep s :
  pat <> "" -> String.prefix pat s = true ->
  replace_fuel (S n) pat rep s =
  rep ++ replace_fuel n pat rep (substring (String.length pat) (String.length s) s).
Proof.
  intros Hp H. destruct s as [|c s'].
  - destruct pat; [congruence | discriminate].
  - cbn [replace_fuel]. rewrite H. reflexivity.
Qed.

(** Replacing a leading [pat] by "" when [pat] does not occur afterwards. *)
Lemma replace_leading pat q :
  pat <> "" -> contains pat q = false -> py_replace pat "" (pat ++ q) = q.
Proof.
  intros Hp Hq. unfold py_replace.
  remember (String.length (pat ++ q)) as m eqn:Hm. destruct m as [|n].
  { destruct pat; [congruence | discriminate]. }
  rewrite replace_fuel_step by (auto using prefix_self_app).
  rewrite <- Hm, substring_app, substring_full
    by (rewrite Hm, string_length_app; lia).
  rewrite replace_fuel_absent by exact Hq. reflexivity.
Qed.

Lemma clean_fenced payload :
  contains "json" payload = false -> clean_response (fenced payload) = payload ++ nl.
Proof.
  intro H. unfold clean_response, fenced.
  assert (E1 : strip_by is_space ("```json" ++ nl ++ payload ++ nl ++ "```") =
               "```json" ++ nl ++ payload ++ nl ++ "```").
  { unfold strip_by.
    change (lstrip_by is_space ("```json" ++ nl ++ payload ++ nl ++ "```"))
      with ("```json" ++ nl ++ payload ++ nl ++ "```").
    replace ("```json" ++ nl ++ payload ++ nl ++ "```")
      with (("```json" ++ nl ++ payload ++ nl) ++ "```") by (rewrite !string_app_assoc; reflexivity).
    rewrite rstrip_app_kept by discriminate. reflexivity. }
  rewrite E1.
  assert (E2 : String.prefix "```" ("```json" ++ nl ++ payload ++ nl ++ "```") = true)
    by reflexivity.
  rewrite E2.
  assert (E3 : strip_by (is_char "`"%char) ("```json" ++ nl ++ payload ++ nl ++ "```") =
               ("json" ++ nl) ++ (payload ++ nl)).
  { unfold strip_by.
    change (lstrip_by (is_char "`"%char) ("```json" ++ nl ++ payload ++ nl ++ "```"))
      with ("json" ++ nl ++ payload ++ nl ++ "```").
    replace ("json" ++ nl ++ payload ++ nl ++ "```")
      with (("json" ++ nl ++ payload) ++ (nl ++ "```")) by (rewrite !string_app_assoc; reflexivity).
    rewrite rstrip_app_kept by discriminate. rewrite !string_app_assoc. reflexivity. }
  rewrite E3.
  assert (Hn : contains "json" (payload ++ nl) = false).
  { apply contains_snoc_absent; [discriminate | simpl; intuition discriminate | exact H]. }
  rewrite replace_leading; [| discriminate | apply contains_app_l; exact Hn].
  unfold py_replace. apply replace_fuel_absent. exact Hn.
Qed.

Lemma generate_text_error p g msg :
  snd (generate_text p g) = inr msg -> msg = "All models failed.".
Proof.
  rewrite GatewayFacts.generate_text_fallback.
  pose proof (GatewayFacts.fallback_spec p cascade g) as F.
  destruct (fallback p cascade g) as [g' r]. simpl. intro E. subst r.
  destruct F as [(F & _) | (i & k & c & m & cl & _ & _ & F & _)]; congruence.
Qed.

End CleanFacts.

(** [generate_structured] raises the [RuntimeError("All models failed.")]
    of [generate_text], the [ValueError] naming the response model when
    the parser's [JSONDecodeError] or [ValidationError] is caught, or an
    exception that the parse itself raises past the [except] clause (such
    as the [RecursionError] of [json.loads] on a deeply nested reply). *)
Theorem generate_structured_errors {A : Type} (p : Gateway.Provider) (g : Gateway.Gw)
    (parse : string -> GatewaySetup.ParseResult A) (name : string) (e : Exn) :
  snd (GatewaySetup.generate_structured p g parse name) = inr e ->
  e = RuntimeError "All models failed." \/
  e = ValueError ("LLM failed to generate valid JSON for " ++ name) \/
  exists raw, snd (Gateway.generate_text p g) = inl raw /\
              parse (GatewaySetup.clean_response raw) = GatewaySetup.ParseRaised e.
Proof.
  unfold GatewaySetup.generate_structured.
  pose proof (CleanFacts.generate_text_error p g) as Hg.
  destruct (Gateway.generate_text p g) as [g1 [raw|msg]]; simpl in *.
  - destruct (parse (GatewaySetup.clean_response raw)) as [a| |e'] eqn:Ep;
      simpl; intro H; [discriminate | |].
    + right; left. congruence.
    + right; right. exists raw. split; [reflexivity|]. rewrite Ep. congruence.
  - intro H. left. rewrite (Hg msg eq_refl) in H. congruence.
Qed.

Lemma generate_structured_errors_witness :
  let e := RecursionError "maximum recursion depth exceeded while decoding a JSON array from a unicode string" in
  snd (GatewaySetup.generate_structured (always_replies "[[[") two_key_gateway
         parse_too_deep "AnswerScore") = inr e /\
  (e = RuntimeError "All models failed." \/
   e = ValueError ("LLM failed to generate valid JSON for " ++ "AnswerScore") \/
   exists raw, snd (Gateway.generate_text (always_replies "[[[") two_key_gateway) = inl raw /\
               parse_too_deep (GatewaySetup.clean_response raw) = GatewaySetup.ParseRaised e).
Proof.
  intro e.
  assert (H : snd (GatewaySetup.generate_structured (always_replies "[[[") two_key_gateway
                     parse_too_deep "AnswerScore") = inr e)
    by reflexivity.
  split; [exact H | exact (generate_structured_errors _ _ _ _ _ H)].
Defined.

(** A reply wrapped in a [json] Markdown fence is unwrapped before
    parsing: when the payload does not contain "json", the parser sees the
    payload followed by the newline before the closing fence. *)
Theorem generate_structured_fenced {A : Type} (p : Gateway.Provider) (g : Gateway.Gw)
    (parse : string -> GatewaySetup.ParseResult A) (name payload : string) :
  GatewaySetup.contains "json" payload = false ->
  snd (Gateway.generate_text p g) = inl (fenced payload) ->
  snd (GatewaySetup.generate_structured p g parse name) =
    match parse (payload ++ GatewaySetup.nl) with
    | GatewaySetup.Parsed a => inl a
    | GatewaySetup.ParseCaught => inr (ValueError ("LLM failed to generate valid JSON for " ++ name))
    | GatewaySetup.ParseRaised e => inr e
    end.
Proof.
  intros Hp Hg. unfold GatewaySetup.generate_structured.
  destruct (Gateway.generate_text p g) as [g1 r]. simpl in Hg. subst r.
  rewrite (CleanFacts.clean_fenced payload Hp).
  destruct (parse (payload ++ GatewaySetup.nl)); reflexivity.
Qed.

Lemma generate_structured_fenced_witness :
  GatewaySetup.contains "json" "{}" = false /\
  snd (Gateway.generate_text (always_replies (fenced "{}")) two_key_gateway) =
    inl (fenced "{}") /\
  snd (GatewaySetup.generate_structured (always_replies (fenced "{}")) two_key_gateway
         parse_empty_object "RubricScores") = inl tt.
Proof.
  assert (H1 : GatewaySetup.contains "json" "{}" = false) by reflexivity.
  assert (H2 : snd (Gateway.generate_text (always_replies (fenced "{}")) two_key_gateway) =
               inl (fenced "{}")) by reflexivity.
  split; [exact H1 | split; [exact H2 |]].
  rewrite (generate_structured_fenced _ _ parse_empty_object "RubricScores" _ H1 H2).
  reflexivity.
Defined.

(** ** The shape of a [process_answer] turn *)

Module TurnFacts.

Lemma log_eye_logs s eye : eye_contact_logs (log_eye s eye) = (eye_contact_logs s ++ eye)%list.
Proof. destruct eye; simpl; [rewrite app_nil_r|]; reflexivity. Qed.

Lemma log_eye_profiles s eye :
  cv_analysis (log_eye s eye) = cv_analysis s /\ jd_analysis (log_eye s eye) = jd_analysis s /\
  gap_analysis (log_eye s eye) = gap_analysis s.
Proof. destruct eye; simpl; auto. Qed.

(** [advance_turn], computed. *)
Lemma advance_turn_eq s1 :
  advance_turn s1 =
  match nth_error (questions s1) (S (current_question_index s1)) with
  | Some q => (set_index s1 (S (current_question_index s1)),
               next_utterance (questions s1) (S (current_question_index s1)))
  | None => (set_status (set_index s1 (S (current_question_index s1))) Completed,
             (closing_utterance, true))
  end.
Proof.
  unfold advance_turn, get_next_question, next_utterance.
  set (s4 := set_index s1 (S (current_question_index s1))).
  assert (Hq : questions s4 = questions s1) by reflexivity.
  assert (Hi : current_question_index s4 = S (current_question_index s1)) by reflexivity.
  rewrite Hq, Hi.
  destruct (nth_error (questions s1) (S (current_question_index s1))) as [q|]; [|reflexivity].
  unfold truthy. destruct (String.eqb (question q) ""); reflexivity.
Qed.

(** A turn on a session that is not completed and whose cursor points at
    a question: the session [s1] after the try block keeps the question
    list, the cursor, the status and the analyses, has the eye metrics
    logged and at most one score appended; the turn then either returns a
    follow-up from [s1], or advances from [s1]. *)
Lemma process_answer_in_range s t eye sr fr q :
  status s <> Completed ->
  nth_error (questions s) (current_question_index s) = Some q ->
  exists s1,
    questions s1 = questions s /\ current_question_index s1 = current_question_index s /\
    status s1 = status s /\ cv_analysis s1 = cv_analysis s /\ jd_analysis s1 = jd_analysis s /\
    gap_analysis s1 = gap_analysis s /\
    eye_contact_logs s1 = (eye_contact_logs s ++ eye)%list /\
    (exists ls, session_scores s1 = (session_scores s ++ ls)%list /\ (List.length ls <= 1)%nat) /\
    ((exists x, process_answer s t eye sr fr = (s1, inl (x, false))) \/
     process_answer s t eye sr fr = (let '(s5, r) := advance_turn s1 in (s5, inl r))).
Proof.
  intros Hst Hq.
  pose proof (log_eye_profiles s eye) as (Hc & Hj & Hg).
  destruct sr as [sd|e].
  - rewrite (process_answer_scored s t eye sd fr q Hst Hq). cbv zeta.
    destruct (follow_up_triggered sd q (followed_up_questions s)).
    + exists (append_followed (append_score (log_eye s eye) (hydrate sd q t)) (qid q)).
      simpl. rewrite log_eye_questions, log_eye_index, log_eye_status, log_eye_logs,
        log_eye_scores, Hc, Hj, Hg.
      do 7 (split; [reflexivity|]). split; [exists [hydrate sd q t]; simpl; auto|].
      destruct (fr (follow_up_prompt q)) as [x|e]; [left; exists x; reflexivity | right; reflexivity].
    + exists (append_score (log_eye s eye) (hydrate sd q t)).
      simpl. rewrite log_eye_questions, log_eye_index, log_eye_status, log_eye_logs,
        log_eye_scores, Hc, Hj, Hg.
      do 7 (split; [reflexivity|]). split; [exists [hydrate sd q t]; simpl; auto|].
      right. reflexivity.
  - rewrite (process_answer_unscored s t eye e fr q Hst Hq).
    exists (log_eye s eye).
    rewrite log_eye_questions, log_eye_index, log_eye_status, log_eye_logs, log_eye_scores, Hc, Hj, Hg.
    do 7 (split; [reflexivity|]). split; [exists []; rewrite app_nil_r; simpl; auto|].
    right. reflexivity.
Qed.

Lemma process_answer_completed s t eye sr fr :
  status s = Completed ->
  process_answer s t eye sr fr = (s, inl ("Interview is complete. Thank you.", true)).
Proof. intro H. unfold process_answer. rewrite H. reflexivity. Qed.

Lemma process_answer_out_of_range s t eye sr fr :
  status s <> Completed ->
  nth_error (questions s) (current_question_index s) = None ->
  process_answer s t eye sr fr = (log_eye s eye, inr IndexError).
Proof.
  intros Hst Hq. unfold process_answer.
  rewrite (status_eqb_completed s Hst), log_eye_questions, log_eye_index, Hq. reflexivity.
Qed.

(** What any turn does to the cursor, the logs and the analyses. *)
Lemma process_answer_frame s t eye sr fr :
  let s' := fst (process_answer s t eye sr fr) in
  questions s' = questions s /\
  (current_question_index s' = current_question_index s \/
   current_question_index s' = S (current_question_index s)) /\
  cv_analysis s' = cv_analysis s /\ jd_analysis s' = jd_analysis s /\
  gap_analysis s' = gap_analysis s /\
  (exists le, eye_contact_logs s' = (eye_contact_logs s ++ le)%list) /\
  (exists ls, session_scores s' = (session_scores s ++ ls)%list /\ (List.length ls <= 1)%nat).
Proof.
  cbv zeta.
  assert (Hd : {status s = Completed} + {status s <> Completed}) by decide equality.
  destruct Hd as [Hc|Hc].
  { rewrite (process_answer_completed s t eye sr fr Hc). simpl.
    repeat split; auto; [exists []; rewrite app_nil_r; reflexivity |
                         exists []; rewrite app_nil_r; simpl; auto]. }
  destruct (nth_error (questions s) (current_question_index s)) as [q|] eqn:Hq.
  2:{ rewrite (process_answer_out_of_range s t eye sr fr Hc Hq). simpl fst.
      pose proof (log_eye_profiles s eye) as (H1 & H2 & H3).
      rewrite log_eye_questions, log_eye_index, log_eye_scores, log_eye_logs.
      repeat split; auto; [exists eye; reflexivity | exists []; rewrite app_nil_r; simpl; auto]. }
  destruct (process_answer_in_range s t eye sr fr q Hc Hq)
    as (s1 & Hq1 & Hi1 & _ & Hc1 & Hj1 & Hg1 & He1 & (ls & Hs1 & Hl) & [(x & E) | E]);
    rewrite E; simpl fst.
  - repeat split; auto; [exists eye; exact He1 | exists ls; auto].
  - rewrite advance_turn_eq.
    destruct (nth_error (questions s1) (S (current_question_index s1))); simpl;
      rewrite Hq1, Hi1, Hc1, Hj1, Hg1; (repeat split; auto; [exists eye; exact He1 | exists ls; auto]).
Qed.

End TurnFacts.

(** ** Orchestrator turns *)

Lemma set_status_same s : set_status s (status s) = s.
Proof. destruct s; reflexivity. Qed.

(** In every session reachable through the orchestrator, the status
    [completed] means the cursor is past the last question; such a
    session is left unchanged by [get_next_question] (which returns
    [None]) and by [process_answer] (which returns
    ["Interview is complete. Thank you."] with [is_complete = True]),
    whatever the gateway returns. *)
Theorem completed_session_is_final (s : InterviewSession) :
  reachable s -> status s = Completed ->
  nth_error (questions s) (current_question_index s) = None /\
  get_next_question s = (s, None) /\
  (forall t eye sr fr,
     process_answer s t eye sr fr = (s, inl ("Interview is complete. Thank you.", true))).
Proof.
  intros Hr Hc.
  assert (Hn : nth_error (questions s) (current_question_index s) = None).
  { revert Hc. induction Hr as [id | op s0 s' Hr IH Hs]; intro Hc; [discriminate|].
    destruct Hs as [s0 cvt jdt cv_r jd_r b gap_r q_r | s0 | s0 t eye sr fr | s0].
    - destruct (analyze_candidate_effect s0 cvt jdt cv_r jd_r b gap_r q_r) as (_ & [E|E]);
        simpl in Hc; congruence.
    - unfold get_next_question in *.
      destruct (nth_error (questions s0) (current_question_index s0)) as [q|] eqn:E;
        simpl in *; [|exact E].
      discriminate (IH Hc).
    - assert (Hd : {status s0 = Completed} + {status s0 <> Completed}) by decide equality.
      destruct Hd as [Hc0|Hc0].
      { rewrite (TurnFacts.process_answer_completed s0 t eye sr fr Hc0). apply IH. exact Hc0. }
      destruct (nth_error (questions s0) (current_question_index s0)) as [q|] eqn:Hq.
      2:{ rewrite (TurnFacts.process_answer_out_of_range s0 t eye sr fr Hc0 Hq) in Hc |- *.
          simpl in Hc. rewrite log_eye_status in Hc. contradiction. }
      destruct (TurnFacts.process_answer_in_range s0 t eye sr fr q Hc0 Hq)
        as (s1 & Hq1 & Hi1 & Hs1 & _ & _ & _ & _ & _ & [(x & E) | E]);
        rewrite E in Hc |- *; simpl in Hc |- *; [congruence|].
      rewrite TurnFacts.advance_turn_eq in Hc |- *.
      destruct (nth_error (questions s1) (S (current_question_index s1))) as [q'|] eqn:E1;
        simpl in Hc |- *; [congruence | exact E1].
    - apply IH. exact Hc. }
  split; [exact Hn | split].
  - unfold get_next_question. rewrite Hn, <- Hc, set_status_same. reflexivity.
  - intros. apply TurnFacts.process_answer_completed. exact Hc.
Qed.

Lemma completed_session_is_final_witness :
  reachable trace_completed /\ status trace_completed = Completed /\
  get_next_question trace_completed = (trace_completed, None).
Proof.
  assert (H1 : reachable trace_completed).
  { apply (reachable_step ONextQuestion (new_session "s")); [constructor | constructor]. }
  assert (H2 : status trace_completed = Completed) by reflexivity.
  split; [exact H1 | split; [exact H2 |]].
  exact (proj1 (proj2 (completed_session_is_final trace_completed H1 H2))).
Defined.

(** Answering on a session that is not completed and whose cursor is not
    on a question (for instance before any analysis) raises [IndexError]
    after logging the eye metrics; nothing else changes. *)
Theorem process_answer_without_question (s : InterviewSession) t eye sr fr :
  status s <> Completed ->
  nth_error (questions s) (current_question_index s) = None ->
  process_answer s t eye sr fr = (log_eye s eye, inr IndexError) /\
  eye_contact_logs (log_eye s eye) = (eye_contact_logs s ++ eye)%list /\
  session_scores (log_eye s eye) = session_scores s /\
  current_question_index (log_eye s eye) = current_question_index s /\
  followed_up_questions (log_eye s eye) = followed_up_questions s.
Proof.
  intros Hc Hq. split; [exact (TurnFacts.process_answer_out_of_range s t eye sr fr Hc Hq)|].
  rewrite TurnFacts.log_eye_logs, log_eye_scores, log_eye_index, log_eye_followed. auto.
Qed.

Lemma process_answer_without_question_witness :
  status (new_session "s") <> Completed /\
  nth_error (questions (new_session "s")) (current_question_index (new_session "s")) = None /\
  snd (process_answer (new_session "s") "Hello" [] (GOk (sample_score 4 false)) follow_up_ok)
    = inr IndexError.
Proof.
  assert (H1 : status (new_session "s") <> Completed) by discriminate.
  assert (H2 : nth_error (questions (new_session "s")) (current_question_index (new_session "s")) = None)
    by reflexivity.
  split; [exact H1 | split; [exact H2 |]].
  destruct (process_answer_without_question (new_session "s") "Hello" [] (GOk (sample_score 4 false))
              follow_up_ok H1 H2) as [E _].
  rewrite E. reflexivity.
Defined.



Lemma analyze_candidate_frame s cvt jdt cv_r jd_r b gap_r q_r :
  let s' := fst (analyze_candidate s cvt jdt cv_r jd_r b gap_r q_r) in
  current_question_index s' = current_question_index s /\
  session_scores s' = session_scores s /\ eye_contact_logs s' = eye_contact_logs s.
Proof.
  unfold analyze_candidate.
  destruct (gather2 cv_r jd_r b) as [[cv jd]|e]; simpl; [|auto].
  destruct gap_r; simpl; [|auto].
  destruct q_r; simpl; auto.
Qed.

Lemma get_next_question_frame s :
  let s' := fst (get_next_question s) in
  current_question_index s' = current_question_index s /\
  session_scores s' = session_scores s /\ eye_contact_logs s' = eye_contact_logs s.
Proof. unfold get_next_question. destruct (nth_error _ _); simpl; auto. Qed.

(** The cursor never moves back and never skips a question: every
    operation leaves it in place, except [process_answer], which may move
    it on by exactly one.  In particular a new analysis does not reset it. *)
Theorem step_cursor (op : Op) (s s' : InterviewSession) :
  step op s s' ->
  current_question_index s' = current_question_index s \/
  (op = OProcessAnswer /\ current_question_index s' = S (current_question_index s)).
Proof.
  intro H. destruct H.
  - left. apply analyze_candidate_frame.
  - left. apply get_next_question_frame.
  - destruct (TurnFacts.process_answer_frame s t eye score_r follow_up_r) as (_ & [E|E] & _); auto.
  - left. reflexivity.
Qed.

Lemma step_cursor_witness :
  step OProcessAnswer sample_session
    (fst (process_answer sample_session "Answer" [] (GOk (sample_score 4 false)) follow_up_ok)) /\
  (current_question_index
     (fst (process_answer sample_session "Answer" [] (GOk (sample_score 4 false)) follow_up_ok)) =
   current_question_index sample_session \/
   (OProcessAnswer = OProcessAnswer /\
    current_question_index
      (fst (process_answer sample_session "Answer" [] (GOk (sample_score 4 false)) follow_up_ok)) =
    S (current_question_index sample_session))).
Proof.
  assert (H : step OProcessAnswer sample_session
    (fst (process_answer sample_session "Answer" [] (GOk (sample_score 4 false)) follow_up_ok)))
    by constructor.
  split; [exact H | exact (step_cursor _ _ _ H)].
Defined.

(** The score list and the eye-contact log are append-only: an operation
    never removes or rewrites an entry.  Only [process_answer] adds to
    them, at most one score and the turn's eye metrics. *)
Theorem step_logs_append_only (op : Op) (s s' : InterviewSession) :
  step op s s' ->
  exists ls le,
    session_scores s' = (session_scores s ++ ls)%list /\ (List.length ls <= 1)%nat /\
    eye_contact_logs s' = (eye_contact_logs s ++ le)%list /\
    (op <> OProcessAnswer -> ls = [] /\ le = []).
Proof.
  intro H. destruct H.
  - exists [], []. rewrite !app_nil_r.
    destruct (analyze_candidate_frame s cv_txt jd_txt cv_r jd_r b gap_r q_r) as (_ & -> & ->).
    simpl. auto.
  - exists [], []. rewrite !app_nil_r.
    destruct (get_next_question_frame s) as (_ & -> & ->). simpl. auto.
  - destruct (TurnFacts.process_answer_frame s t eye score_r follow_up_r)
      as (_ & _ & _ & _ & _ & (le & He) & (ls & Hs & Hl)).
    exists ls, le. split; [exact Hs | split; [exact Hl | split; [exact He | intro Hop; congruence]]].
  - exists [], []. rewrite !app_nil_r. simpl. auto.
Qed.

Lemma step_logs_append_only_witness :
  step OAnalyze trace_followed trace_reanalysed /\
  session_scores trace_reanalysed = session_scores trace_followed.
Proof.
  assert (H : step OAnalyze trace_followed trace_reanalysed) by constructor.
  split; [exact H |].
  destruct (step_logs_append_only _ _ _ H) as (ls & le & Hs & _ & _ & Hop).
  destruct (Hop ltac:(discriminate)) as [-> _]. rewrite app_nil_r in Hs. exact Hs.
Defined.

(** A successful analysis installs the new analyses and questions and
    sets the status to ready, but keeps the cursor, the scores and the
    followed-up ids: the next question asked is the one at the old
    cursor position in the new list. *)
Theorem analysis_keeps_progress (s : InterviewSession) cvt jdt cv jd b gap qs :
  let '(s', r) := analyze_candidate s cvt jdt (GOk cv) (GOk jd) b (GOk gap) (GOk qs) in
  r = inl (Some cv, Some jd, Some gap, qs) /\
  status s' = Ready /\ questions s' = qs /\
  current_question_index s' = current_question_index s /\
  session_scores s' = session_scores s /\
  followed_up_questions s' = followed_up_questions s /\
  snd (get_next_question s') = option_map question (nth_error qs (current_question_index s)).
Proof.
  simpl. repeat split; auto.
  unfold get_next_question. simpl.
  destruct (nth_error qs (current_question_index s)); reflexivity.
Qed.

(** The report after a successful analysis: for validated scores it
    always succeeds when the recommendation call does, counts the
    questions of the new list but the answers (and per-question scores)
    of the whole session. *)
Theorem report_after_analysis (s : InterviewSession) cvt jdt cv jd b gap qs ns rcm :
  scores_in_range (session_scores s) ->
  (Z.of_nat (List.length (session_scores s)) < 2 ^ 52)%Z ->
  let s' := fst (analyze_candidate s cvt jdt (GOk cv) (GOk jd) b (GOk gap) (GOk qs)) in
  exists rep,
    generate_final_report ns s' (GOk rcm) = inl rep /\
    candidate rep = cv /\ job rep = jd /\ report_gap_analysis rep = gap /\
    total_questions rep = List.length qs /\
    questions_answered rep = List.length (session_scores s) /\
    per_question_scores rep = session_scores s /\
    recommendation rep = rcm.
Proof.
  intros Hf Hl. cbv zeta. unfold generate_final_report. simpl.
  destruct (rubric_avg_ok ns _ Hf Hl) as [avg ->].
  eexists. split; [reflexivity | simpl; repeat split; reflexivity].
Qed.

Lemma report_after_analysis_witness :
  scores_in_range (session_scores trace_followed) /\
  (Z.of_nat (List.length (session_scores trace_followed)) < 2 ^ 52)%Z /\
  exists rep,
    generate_final_report true
      (fst (analyze_candidate trace_followed "cv" "jd" (GOk sample_cv) (GOk sample_jd) false
              (GOk sample_gap) (GOk [sample_q1]))) (GOk sample_recommendation) = inl rep /\
    questions_answered rep = List.length (session_scores trace_followed).
Proof.
  assert (Hf : scores_in_range (session_scores trace_followed)).
  { apply Forall_forall. intros a Ha d. vm_compute in Ha. destruct Ha as [<-|[]].
    destruct d; vm_compute; split; discriminate. }
  assert (Hl : (Z.of_nat (List.length (session_scores trace_followed)) < 2 ^ 52)%Z)
    by (vm_compute; reflexivity).
  split; [exact Hf | split; [exact Hl |]].
  destruct (report_after_analysis trace_followed "cv" "jd" sample_cv sample_jd false sample_gap
              [sample_q1] true sample_recommendation Hf Hl) as (rep & H1 & _ & _ & _ & _ & H6 & _).
  exists rep. split; [exact H1 | exact H6].
Defined.



(** Asking for the next question twice in a row is the same as asking
    once: [get_next_question] does not move the cursor. *)
Theorem get_next_question_idempotent (s : InterviewSession) :
  get_next_question (fst (get_next_question s)) = get_next_question s.
Proof.
  unfold get_next_question.
  destruct (nth_error (questions s) (current_question_index s)) as [q|] eqn:E; simpl.
  - rewrite E. reflexivity.
  - rewrite E. reflexivity.
Qed.

(** ** Bounds of the report's rubric entries *)

(** When every rubric score is in the range [0..5] that [ScoreDetail]
    validates, each of the four dimension entries of the report's
    [rubric_scores] is present, finite and lies in [0, 5] (neither the
    division nor the rounding to two decimals leaves the range).  The
    ["overall"] entry has no such bound: it averages the model's
    [average_score], which is not validated. *)
Theorem report_dimensions_in_range ns (s : InterviewSession) rr rep :
  scores_in_range (session_scores s) ->
  generate_final_report ns s rr = inl rep ->
  forall d, exists v, dict_get (dim_name d) (rubric_scores rep) = Some (Fin v) /\ 0 <= v <= 5.
Proof.
  intros Hf H d. destruct (generate_final_report_ok ns s rr rep H) as [Havg _].
  destruct (session_scores s) as [|a l] eqn:Hs.
  - simpl in Havg. injection Havg as <-. exists 0.
    split; [destruct d; reflexivity | split; discriminate].
  - destruct (rubric_avg_entries ns (a :: l) _ ltac:(discriminate) Havg) as [Hd _].
    rewrite Hd.
    assert (Hn : (0 < Z.of_nat (List.length (a :: l)))%Z) by (simpl; lia).
    destruct (FloatFacts.to_double_between
                (inject_Z (z_sum (map (fun s => dim_score d (scores s)) (a :: l)))
                 / inject_Z (Z.of_nat (List.length (a :: l)))) 0 5 ltac:(lia) ltac:(reflexivity)
                (FloatFacts.mean_between _ _ Hn (dimension_total_bounds d _ Hf)))
      as (v & -> & Hv).
    destruct (FloatFacts.py_round2_bounds v Hv) as (w & -> & Hw).
    exists w. split; [reflexivity | exact Hw].
Qed.

Lemma report_dimensions_in_range_witness :
  scores_in_range (session_scores sample_answered) /\
  exists rep, generate_final_report true sample_answered (GOk sample_recommendation) = inl rep /\
  exists v, dict_get "depth" (rubric_scores rep) = Some (Fin v) /\ 0 <= v <= 5.
Proof.
  assert (Hf : scores_in_range (session_scores sample_answered)).
  { apply Forall_forall. intros a Ha d. vm_compute in Ha. destruct Ha as [<-|[]].
    destruct d; vm_compute; split; discriminate. }
  split; [exact Hf |].
  destruct (generate_final_report true sample_answered (GOk sample_recommendation)) as [rep|e] eqn:E.
  - exists rep. split; [reflexivity |].
    exact (report_dimensions_in_range true sample_answered _ rep Hf E DDepth).
  - vm_compute in E. discriminate.
Defined.

(** ** Session storage *)

Module RegistryFacts.

Lemma get_set_same k v r : get_session k (reg_set k v r) = Some v.
Proof.
  induction r as [|[k' v'] r IH]; simpl.
  - rewrite String.eqb_refl. reflexivity.
  - destruct (String.eqb k k') eqn:E; simpl; rewrite ?String.eqb_refl, ?E; auto.
Qed.

Lemma get_set_other k k' v r : k' <> k -> get_session k' (reg_set k v r) = get_session k' r.
Proof.
  intro Hne. induction r as [|[k0 v0] r IH]; simpl.
  - apply String.eqb_neq in Hne. rewrite Hne. reflexivity.
  - destruct (String.eqb k k0) eqn:E; simpl.
    + apply String.eqb_eq in E. subst k0.
      apply String.eqb_neq in Hne. rewrite Hne. reflexivity.
    + rewrite IH. reflexivity.
Qed.

Lemma keys_set k v r :
  map fst (reg_set k v r) = map fst r \/
  (map fst (reg_set k v r) = (map fst r ++ [k])%list /\ ~ In k (map fst r)).
Proof.
  induction r as [|[k' v'] r IH]; simpl; [right; auto|].
  destruct (String.eqb k k') eqn:E; simpl.
  - apply String.eqb_eq in E. subst. left. reflexivity.
  - apply String.eqb_neq in E. destruct IH as [-> | [-> Hn]]; [left; reflexivity|].
    right. split; [reflexivity|]. intros [H|H]; [congruence | contradiction].
Qed.

Lemma entries_set k v r :
  forall kv, In kv (reg_set k v r) -> kv = (k, v) \/ In kv r.
Proof.
  induction r as [|[k' v'] r IH]; simpl; intros kv H.
  - destruct H as [H|[]]. auto.
  - destruct (String.eqb k k'); simpl in H; destruct H as [H|H]; auto.
    destruct (IH kv H); auto.
Qed.

Lemma wf_set v r :
  registry_ok r -> registry_ok (reg_set (sid v) v r).
Proof.
  intros [Hd Hf]. split.
  - destruct (keys_set (sid v) v r) as [-> | [-> Hn]]; [exact Hd|].
    apply (Permutation_NoDup (Permutation_cons_append _ _)). constructor; auto.
  - apply Forall_forall. intros kv Hin.
    destruct (entries_set _ _ _ kv Hin) as [-> | H]; [reflexivity|].
    rewrite Forall_forall in Hf. apply Hf. exact H.
Qed.

Lemma wf_load files parse : forall r,
  registry_ok r -> registry_ok (load_all_sessions r files parse).
Proof.
  induction files as [|f files IH]; intros r H; simpl; [exact H|].
  apply IH. destruct (parse f); [apply wf_set|]; exact H.
Qed.

Lemma load_app r pre post parse :
  load_all_sessions r (pre ++ post) parse =
  load_all_sessions (load_all_sessions r pre parse) post parse.
Proof. unfold load_all_sessions. apply fold_left_app. Qed.

Lemma load_keeps_unmatched id post parse : forall r,
  Forall (fun f => forall s', parse f = Some s' -> sid s' <> id) post ->
  get_session id (load_all_sessions r post parse) = get_session id r.
Proof.
  induction post as [|f post IH]; intros r H; simpl; [reflexivity|].
  inversion H as [|? ? Hf Hp]; subst.
  rewrite IH by exact Hp.
  destruct (parse f) as [s'|] eqn:E; [|reflexivity].
  apply get_set_other. intro Heq. apply (Hf s' eq_refl). symmetry. exact Heq.
Qed.

End RegistryFacts.

(** [create_session] registers a fresh session under its id: [get_session]
    then returns it (status idle, no questions), and every other id keeps
    its entry. *)
Theorem create_session_registers (r : Registry) (fresh : string) :
  let '(r', s) := create_session r fresh in
  s = new_session fresh /\ status s = Idle /\ questions s = [] /\
  get_session fresh r' = Some s /\
  (forall id, id <> fresh -> get_session id r' = get_session id r).
Proof.
  simpl. repeat split; [apply RegistryFacts.get_set_same|].
  intros id Hne. apply RegistryFacts.get_set_other. exact Hne.
Qed.

(** The registry stays a well-formed dict: each id appears once and maps
    to the session with that id, through [load_all_sessions] and
    [create_session]. *)
Theorem registry_stays_well_formed (r : Registry) files parse fresh :
  registry_ok r ->
  registry_ok (load_all_sessions r files parse) /\ registry_ok (fst (create_session r fresh)).
Proof.
  intro H. split; [apply RegistryFacts.wf_load; exact H|].
  apply RegistryFacts.wf_set. exact H.
Qed.

Lemma registry_stays_well_formed_witness :
  registry_ok [] /\
  registry_ok (load_all_sessions [] ["a.json"; "b.json"]
                 sample_parse).
Proof.
  assert (H : registry_ok []) by (split; constructor).
  split; [exact H |].
  exact (proj1 (registry_stays_well_formed [] ["a.json"; "b.json"]
                  sample_parse "c" H)).
Defined.

(** A file that fails to load is skipped: loading with it is the same as
    loading without it. *)
Theorem load_all_sessions_skips_invalid (r : Registry) pre f post parse :
  parse f = None ->
  load_all_sessions r (pre ++ f :: post) parse = load_all_sessions r (pre ++ post) parse.
Proof.
  intro H. rewrite !RegistryFacts.load_app. simpl. rewrite H. reflexivity.
Qed.

Lemma load_all_sessions_skips_invalid_witness :
  sample_parse "bad.json" = None /\
  load_all_sessions [] (["a.json"] ++ "bad.json" :: [])
    sample_parse =
  load_all_sessions [] (["a.json"] ++ [])
    sample_parse.
Proof.
  assert (H : sample_parse "bad.json" = None)
    by reflexivity.
  split; [exact H | apply load_all_sessions_skips_invalid; exact H].
Defined.

(** When several files hold a session with the same id, the last one
    loaded wins. *)
Theorem load_all_sessions_last_wins (r : Registry) pre f post parse s :
  parse f = Some s ->
  Forall (fun f' => forall s', parse f' = Some s' -> sid s' <> sid s) post ->
  get_session (sid s) (load_all_sessions r (pre ++ f :: post) parse) = Some s.
Proof.
  intros Hf Hp. rewrite RegistryFacts.load_app. simpl. rewrite Hf.
  rewrite RegistryFacts.load_keeps_unmatched by exact Hp.
  apply RegistryFacts.get_set_same.
Qed.

Lemma load_all_sessions_last_wins_witness :
  sample_parse "a2.json" = Some (set_status (new_session "a") Ready) /\
  Forall (fun f' => forall s', sample_parse f' = Some s' ->
                    sid s' <> sid (set_status (new_session "a") Ready)) ["bad.json"] /\
  get_session "a" (load_all_sessions [] ["a.json"; "a2.json"; "bad.json"] sample_parse) =
    Some (set_status (new_session "a") Ready).
Proof.
  assert (H1 : sample_parse "a2.json" = Some (set_status (new_session "a") Ready)) by reflexivity.
  assert (H2 : Forall (fun f' => forall s', sample_parse f' = Some s' ->
                       sid s' <> sid (set_status (new_session "a") Ready)) ["bad.json"]).
  { constructor; [intros s' H; discriminate H | constructor]. }
  split; [exact H1 | split; [exact H2 |]].
  exact (load_all_sessions_last_wins [] ["a.json"] "a2.json" ["bad.json"] sample_parse _ H1 H2).
Defined.

(** [AsyncLLMGateway()] raises [ValueError("No GROQ_API_KEY found")]
    exactly when no key is found; otherwise it holds one client per key
    and its rotation pointer stays a valid client index through any
    sequence of [generate_text] calls. *)
Theorem gateway_init_clients (env : string -> option string) (dotenv : option (list string)) :
  (GatewaySetup.gateway_init env dotenv = inr (ValueError "No GROQ_API_KEY found") <->
   GatewaySetup.load_api_keys env dotenv = []) /\
  (forall g, GatewaySetup.gateway_init env dotenv = inl g ->
   Gateway.n_clients g = List.length (GatewaySetup.load_api_keys env dotenv) /\
   (0 < Gateway.n_clients g)%nat /\
   forall ps, Gateway.n_clients (run_generate_text ps g) = Gateway.n_clients g /\
              (Gateway.current_client_idx (run_generate_text ps g) <
               Gateway.n_clients (run_generate_text ps g))%nat).
Proof.
  unfold GatewaySetup.gateway_init.
  destruct (GatewaySetup.load_api_keys env dotenv) as [|k ks]; split.
  - split; reflexivity.
  - intros g H. discriminate.
  - split; [discriminate | intro H; discriminate].
  - intros g H. injection H as <-. split; [reflexivity | split; [simpl; lia |]].
    intro ps. unfold run_generate_text.
    assert (Hinv : forall g0, (Gateway.current_client_idx g0 < Gateway.n_clients g0)%nat ->
      Gateway.n_clients (fold_left (fun g p => fst (Gateway.generate_text p g)) ps g0) =
        Gateway.n_clients g0 /\
      (Gateway.current_client_idx (fold_left (fun g p => fst (Gateway.generate_text p g)) ps g0) <
       Gateway.n_clients (fold_left (fun g p => fst (Gateway.generate_text p g)) ps g0))%nat).
    { induction ps as [|p ps IH]; intros g0 H0; simpl; [auto|].
      assert (Hg : Gateway.n_clients (fst (Gateway.generate_text p g0)) = Gateway.n_clients g0 /\
                   (Gateway.current_client_idx (fst (Gateway.generate_text p g0)) <
                    Gateway.n_clients g0)%nat).
      { rewrite GatewayFacts.generate_text_fallback.
        destruct (RotationFacts.fallback_clients p Gateway.cascade g0) as [Hn Hi]. auto. }
      destruct Hg as [Hn Hi].
      destruct (IH (fst (Gateway.generate_text p g0))) as [Hn' Hi']; [rewrite Hn; exact Hi |].
      rewrite Hn' in *. rewrite Hn in *. auto. }
    apply Hinv. simpl. lia.
Qed.
